(** * BannedBooks: the indexing and scoring core of [backend/analysis.py]

    A shallow embedding of the tokenizer, the collection indexer, the term
    statistics, the boolean matcher, the term-at-a-time scorer, the cosine
    ranker and the nearest-neighbour step of the latent-semantic engine,
    followed by the properties the specification states about them.

    Conventions of the embedding.
    - A Python [str] is a Rocq [string]: a sequence of code points below 256.
    - A Python [dict] is an insertion-ordered association list ([dict K V]):
      iteration visits the keys in the order of their first insertion, and
      assigning to an existing key keeps its position.
    - A Python [set] turned into a list has an iteration order that the
      language leaves open.  For sets of tokens the order is an interface
      ([SetOrder]); for sets of document ids it is that of [elements] on
      [gset nat].
    - Document ids, document counts and term frequencies are [nat].
    - Python floats are read as real numbers ([R]): rounding, infinities and
      NaN are outside the model.
    - A raised exception is the [Raise] constructor of [result]. *)

From Stdlib Require Import Reals Lra Sorted Ascii String.
From stdpp Require Import base list strings gmap sorting.

#[global] Arguments pow : simpl never.
#[global] Arguments INR : simpl never.

Open Scope string_scope.
Open Scope list_scope.
Open Scope R_scope.
Open Scope nat_scope.

(** ** Exceptions and the error monad *)

Inductive exn : Set :=
| KeyError
| IndexError
| ZeroDivisionError
| ValueError.

Inductive result (A : Type) : Type :=
| Ok (a : A)
| Raise (e : exn).
Arguments Ok {A} a.
Arguments Raise {A} e.

Definition bind {A B} (m : result A) (k : A → result B) : result B :=
  match m with
  | Raise e => Raise e
  | Ok a => k a
  end.

Notation "'let!' x ':=' m 'in' k" := (bind m (λ x, k))
  (at level 10, x name, m at level 100, k at level 200).

(** A [for] loop whose body may raise: the state is threaded from left to
    right and the first exception leaves the loop. *)
Fixpoint for_each {A S} (body : S → A → result S) (l : list A) (s : S)
  : result S :=
  match l with
  | [] => Ok s
  | x :: l' => let! s' := body s x in for_each body l' s'
  end.

(** ** Dictionaries *)

Module Dict.
Section dict.
Context {K V : Type} `{EqDecision K}.

Definition dict := list (K * V).

(** [d.get(k)] *)
Fixpoint get (d : dict) (k : K) : option V :=
  match d with
  | [] => None
  | (k', v) :: d' => if decide (k = k') then Some v else get d' k
  end.

(** [k in d] *)
Definition mem (d : dict) (k : K) : bool := bool_decide (is_Some (get d k)).

(** [d[k]] *)
Definition getitem (d : dict) (k : K) : result V :=
  match get d k with
  | Some v => Ok v
  | None => Raise KeyError
  end.

(** [d.get(k, dflt)] *)
Definition get_default (d : dict) (k : K) (dflt : V) : V :=
  default dflt (get d k).

(** [d[k] = v] *)
Fixpoint set (k : K) (v : V) (d : dict) : dict :=
  match d with
  | [] => [(k, v)]
  | (k', v') :: d' =>
      if decide (k = k') then (k', v) :: d' else (k', v') :: set k v d'
  end.

(** [list(d)], the keys in iteration order *)
Definition keys (d : dict) : list K := d.*1.

End dict.
Arguments dict : clear implicits.
End Dict.

Abbreviation dict := Dict.dict.

(** ** Tokenizer *)

Definition code (c : ascii) : nat := nat_of_ascii c.

(** [str.lower] on one code point below 256: the ASCII capitals and the
    Latin-1 capitals (all of 192..222 but the multiplication sign) move up
    by 32. *)
Definition lower_char (c : ascii) : ascii :=
  let n := code c in
  if ((65 <=? n) && (n <=? 90)) || ((192 <=? n) && (n <=? 222) && negb (n =? 215))
  then ascii_of_nat (n + 32)
  else c.

Fixpoint lower (s : string) : string :=
  match s with
  | EmptyString => EmptyString
  | String c s' => String (lower_char c) (lower s')
  end.

(** The character class [[a-z]]. *)
Definition is_az (c : ascii) : bool := (97 <=? code c) && (code c <=? 122).

Definition flush (run : string) : list string :=
  match run with
  | EmptyString => []
  | _ => [run]
  end.

(** [re.findall(r'[a-z]+', s)]: the maximal runs of letters, left to right.
    [run] is the run being read. *)
Fixpoint findall_az (run : string) (s : string) : list string :=
  match s with
  | EmptyString => flush run
  | String c s' =>
      if is_az c then findall_az (run +:+ String c EmptyString) s'
      else flush run ++ findall_az EmptyString s'
  end.

Definition tokenize (text : string) : list string :=
  let low_text := lower text in
  findall_az EmptyString low_text.

(** ** Iteration order of a set of tokens

    [list(set(xs))] lists every distinct element of [xs] once, in an order
    the language does not fix. *)

Class SetOrder := {
  set_order : list string → list string;
  set_order_NoDup : ∀ xs, NoDup (set_order xs);
  set_order_elem : ∀ xs x, x ∈ set_order xs ↔ x ∈ xs
}.

(** One admissible order: that of the first occurrences. *)
Fixpoint first_seen (xs : list string) : list string :=
  match xs with
  | [] => []
  | x :: xs' => x :: filter (λ y, y ≠ x) (first_seen xs')
  end.

(** [xs.count(x)] *)
Definition count (x : string) (xs : list string) : nat :=
  length (filter (λ y, y = x) xs).

(** ** Collection indexer *)

Definition build_doc_inverted_index (doc_lst : list string) : dict string nat :=
  foldl
    (λ inv_idx doc_idx,
       match doc_lst !! doc_idx with
       | Some doc => Dict.set doc doc_idx inv_idx
       | None => inv_idx
       end)
    [] (seq 0 (length doc_lst)).

(** The body of the inner loop of both index builders: append [entry] to
    the posting list of [tok], creating the list when [tok] is new. *)
Definition add_posting {P} (entry : P) (idx : dict string (list P))
    (tok : string) : dict string (list P) :=
  match Dict.get idx tok with
  | Some postings => Dict.set tok (postings ++ [entry]) idx
  | None => Dict.set tok [entry] idx
  end.

Section indexer.
Context `{SetOrder}.

Definition build_token_inverted_index (doc_lst : list string)
    (doc_inv_idx : dict string nat) : result (dict string (list nat)) :=
  for_each
    (λ token_inv_idx doc,
       let! doc_idx := Dict.getitem doc_inv_idx doc in
       let doc_tokenized := tokenize doc in
       let doc_tokenized_set := set_order doc_tokenized in
       Ok (foldl (add_posting doc_idx) token_inv_idx doc_tokenized_set))
    doc_lst [].

Definition build_token_inverted_index_with_freq (doc_lst : list string)
    (doc_inv_idx : dict string nat)
  : result (dict string (list (nat * nat))) :=
  for_each
    (λ token_inv_idx doc,
       let! doc_idx := Dict.getitem doc_inv_idx doc in
       let doc_tokenized := tokenize doc in
       let doc_tokenized_set := set_order doc_tokenized in
       Ok (foldl
             (λ idx tok, add_posting (doc_idx, count tok doc_tokenized) idx tok)
             token_inv_idx doc_tokenized_set))
    doc_lst [].
End indexer.

(** ** Boolean matcher *)

(** The loop of [boolean_search] over the query tokens; [results] is the
    running set.  An unknown token returns the empty list at once. *)
Fixpoint boolean_loop (token_inv_idx : dict string (list nat))
    (query_tok : list string) (results : gset nat) : list nat :=
  match query_tok with
  | [] => elements results
  | tok :: query_tok' =>
      match Dict.get token_inv_idx tok with
      | None => []
      | Some postings =>
          boolean_loop token_inv_idx query_tok' (results ∩ list_to_set postings)
      end
  end.

Definition boolean_search (query : string)
    (token_inv_idx : dict string (list nat)) (num_docs : nat) : list nat :=
  let query_tok := tokenize query in
  let results : gset nat := list_to_set (seq 0 num_docs) in
  boolean_loop token_inv_idx query_tok results.

(** ** Term statistics *)

(** [collections.Counter(tokens)] read as a dict: keys in first-seen order. *)
Definition Counter (tokens : list string) : dict string nat :=
  foldl (λ c tok, Dict.set tok (S (Dict.get_default c tok 0)) c) [] tokens.

Section query_counts.
Context `{SetOrder}.

Definition word_counts (str_query : string) : dict string nat :=
  let tokenized := tokenize str_query in
  let tokenize_set := set_order tokenized in
  foldl (λ result tok, Dict.set tok (count tok tokenized) result) [] tokenize_set.
End query_counts.

(** [math.log(x, 2)] *)
Definition log2 (x : R) : R := (ln x / ln 2)%R.

Definition Rltb (x y : R) : bool := if Rlt_dec x y then true else false.

Definition compute_idf {P} (inv_idx : dict string (list P))
    (n_docs min_df : nat) (max_df_ratio : R) : result (dict string R) :=
  for_each
    (λ idf_dict term,
       let! postings := Dict.getitem inv_idx term in
       let df := length postings in
       if min_df <=? df then
         if n_docs =? 0 then Raise ZeroDivisionError
         else if Rltb (INR df / INR n_docs) max_df_ratio then
           let idf_in := (INR n_docs / INR (1 + df))%R in
           Ok (Dict.set term (log2 idf_in) idf_dict)
         else Ok idf_dict
       else Ok idf_dict)
    (Dict.keys inv_idx) [].

(** The first loop of [compute_doc_norms]: for every document, the
    [(tf, idf)] pairs of its terms that have an idf value. *)
Definition collect_doc_words (index : dict string (list (nat * nat)))
    (idf : dict string R) : dict nat (list (nat * R)) :=
  foldl
    (λ doc_dict '(word, idf_val),
       foldl
         (λ doc_dict '(doc_id, tf),
            let doc_words := Dict.get_default doc_dict doc_id [] in
            Dict.set doc_id (doc_words ++ [(tf, idf_val)]) doc_dict)
         doc_dict (Dict.get_default index word []))
    [] idf.

Definition norm_of (doc_words : list (nat * R)) : R :=
  sqrt (foldl (λ norm_sum '(tf, idf_val), (norm_sum + (INR tf * idf_val) ^ 2)%R)
          0%R doc_words).

Definition compute_doc_norms (index : dict string (list (nat * nat)))
    (idf : dict string R) (n_docs : nat) : list R :=
  let doc_dict := collect_doc_words index idf in
  map (λ doc_id, norm_of (Dict.get_default doc_dict doc_id [])) (seq 0 n_docs).

(** ** Scorer *)

Definition score_posting (query_word_counts : dict string nat)
    (idf : dict string R) (word : string) (doc_scores : dict nat R)
    (posting : nat * nat) : result (dict nat R) :=
  let '(doc, word_frequency) := posting in
  let! qc := Dict.getitem query_word_counts word in
  let dot := INR (word_frequency * qc) in
  let! idf_word := Dict.getitem idf word in
  let dot := (dot * idf_word ^ 2)%R in
  Ok (Dict.set doc (Dict.get_default doc_scores doc 0 + dot)%R doc_scores).

Definition accumulate_dot_scores (query_word_counts : dict string nat)
    (index : dict string (list (nat * nat))) (idf : dict string R)
  : result (dict nat R) :=
  for_each
    (λ doc_scores word,
       let! word_docs := Dict.getitem index word in
       if Dict.mem query_word_counts word then
         for_each (score_posting query_word_counts idf word) word_docs doc_scores
       else Ok doc_scores)
    (Dict.keys index) [].

(** ** Ranker *)

(** [sorted(results, key=lambda x: x[0], reverse=True)]: a stable sort by
    descending score. *)
Fixpoint insert_desc (x : R * nat) (l : list (R * nat)) : list (R * nat) :=
  match l with
  | [] => [x]
  | y :: l' => if Rltb x.1 y.1 then y :: insert_desc x l' else x :: l
  end.

Definition sorted_desc (l : list (R * nat)) : list (R * nat) :=
  foldr insert_desc [] l.

(** [a[i]] on an array *)
Definition array_getitem {A} (a : list A) (i : nat) : result A :=
  match a !! i with
  | Some x => Ok x
  | None => Raise IndexError
  end.

(** The squared norm of the query, summed over the token sequence. *)
Definition query_norm_sq (idf : dict string R) (query_w_counts : dict string nat)
    (tokens : list string) : result R :=
  for_each
    (λ query_norm_m token,
       if Dict.mem idf token then
         let! idf_tok := Dict.getitem idf token in
         let! c := Dict.getitem query_w_counts token in
         let prd_sqr := ((idf_tok * INR c) ^ 2)%R in
         Ok (query_norm_m + prd_sqr)%R
       else Ok query_norm_m)
    tokens 0%R.

(** The division of [index_search] is that of numpy floats: a zero
    denominator yields [inf] or [nan], not an exception.  Here it is the
    total division of [R]; what is stated about scores assumes nonzero
    denominators. *)
Definition index_search (query : string)
    (index : dict string (list (nat * nat))) (idf : dict string R)
    (doc_norms : list R)
    (score_func : dict string nat → dict string (list (nat * nat)) →
                  dict string R → result (dict nat R))
    (tokenizer : string → list string) : result (list (R * nat)) :=
  let query := lower query in
  let tokens := tokenizer query in
  let query_w_counts := Counter tokens in
  let! query_norm_m := query_norm_sq idf query_w_counts tokens in
  let! num_vals := score_func query_w_counts index idf in
  let! results :=
    for_each
      (λ results doc,
         let! num := Dict.getitem num_vals doc in
         let! norm := array_getitem doc_norms doc in
         let cos_sim := (num / (sqrt query_norm_m * norm))%R in
         Ok (results ++ [(cos_sim, doc)]))
      (Dict.keys num_vals) [] in
  Ok (sorted_desc results).

Section rankings.
Context `{SetOrder}.

Definition get_doc_rankings (query : string) (doc_lst : list string)
    (num_docs : nat) : result (list nat) :=
  let query := lower query in
  let doc_inv_idx := build_doc_inverted_index doc_lst in
  let! tok_inv_idx := build_token_inverted_index_with_freq doc_lst doc_inv_idx in
  let! idf_list := compute_idf tok_inv_idx (length doc_lst) 0 1%R in
  let doc_norms := compute_doc_norms tok_inv_idx idf_list (length doc_lst) in
  let score_func := accumulate_dot_scores in
  let! results :=
    index_search query tok_inv_idx idf_list doc_norms score_func tokenize in
  Ok ((take num_docs results).*2).
End rankings.

(** ** Latent-semantic engine

    The numpy arrays of [closest_projects_to_query], by number of axes.  A
    matrix is the list of its rows. *)

Inductive ndarray : Type :=
| Scalar (x : R)
| Vector (v : list R)
| Matrix (m : list (list R)).

(** An array of indices, as [np.argsort] returns it. *)
Inductive ndindex : Type :=
| Idx1 (l : list nat)
| Idx2 (m : list (list nat)).

Definition sum_R (l : list R) : R := foldr Rplus 0%R l.

Definition inner (u v : list R) : R := sum_R (zip_with Rmult u v).

Definition ncols (m : list (list R)) : nat :=
  match m with
  | [] => 0
  | row :: _ => length row
  end.

(** [np.dot(q, W)] for a one-row [q]: the row [q] times the matrix [W]. *)
Definition row_times_matrix (q : list R) (W : list (list R)) : result (list R) :=
  if length q =? length W then
    Ok (foldr (λ '(qi, row) acc, zip_with Rplus (map (Rmult qi) row) acc)
          (replicate (ncols W) 0%R) (zip q W))
  else Raise ValueError.

(** [sklearn.preprocessing.normalize] on one row: divide by the Euclidean
    norm; a zero row is left as it is. *)
Definition normalize (v : list R) : list R :=
  let norm := sqrt (sum_R (map (λ x, x ^ 2)%R v)) in
  if Req_dec_T norm 0 then v else map (λ x, x / norm)%R v.

(** [.squeeze()] of a one-row matrix: a single entry becomes a scalar. *)
Definition squeeze (row : list R) : ndarray :=
  match row with
  | [x] => Scalar x
  | _ => Vector row
  end.

(** [docs.dot(q)] *)
Definition matrix_dot (docs : list (list R)) (q : ndarray) : result ndarray :=
  match q with
  | Scalar x => Ok (Matrix (map (map (λ y, y * x)%R) docs))
  | Vector v =>
      let! sims :=
        for_each
          (λ sims row,
             if length row =? length v then Ok (sims ++ [inner row v])
             else Raise ValueError)
          docs [] in
      Ok (Vector sims)
  | Matrix _ => Raise ValueError
  end.

(** The entry of an array at an index, zero outside. *)
Definition entry (v : list R) (i : nat) : R := default 0%R (v !! i).

(** [np.argsort] of a one-axis array: the indices in ascending order of
    their entries.  The default sort is not stable, so the order among
    equal entries is left open. *)
Class ArgSort := {
  argsort : list R → list nat;
  argsort_perm : ∀ v, argsort v ≡ₚ seq 0 (length v);
  argsort_sorted :
    ∀ v, StronglySorted (λ a b, (entry v a <= entry v b)%R) (argsort v)
}.

(** One admissible argsort: stable insertion. *)
Fixpoint insert_asc (v : list R) (i : nat) (l : list nat) : list nat :=
  match l with
  | [] => [i]
  | j :: l' => if Rltb (entry v j) (entry v i) then j :: insert_asc v i l' else i :: l
  end.

Definition insertion_argsort (v : list R) : list nat :=
  foldr (insert_asc v) [] (seq 0 (length v)).

Section lsi.
Context `{ArgSort}.

(** The projection of the query into the latent space (first line of
    [closest_projects_to_query]).  [query_vec] is the one row of the
    1 x V array that [svd_analysis] returns. *)
Definition embed_query (words_compressed_normed : list (list R))
    (query_vec : list R) : result ndarray :=
  let! projected := row_times_matrix query_vec words_compressed_normed in
  Ok (squeeze (normalize projected)).

(** [np.argsort(-sims)[:k+1]] *)
Definition nearest (sims : ndarray) (k : nat) : result ndindex :=
  match sims with
  | Scalar _ => Ok (Idx1 (take (k + 1) [0]))
  | Vector s => Ok (Idx1 (take (k + 1) (argsort (map Ropp s))))
  | Matrix m => Ok (Idx2 (take (k + 1) (map (λ row, argsort (map Ropp row)) m)))
  end.

Definition closest_projects_to_query (docs_compressed_normed : list (list R))
    (words_compressed_normed : list (list R)) (query_vec : list R) (k : nat)
  : result ndindex :=
  let! new_query_vec := embed_query words_compressed_normed query_vec in
  let! sims := matrix_dot docs_compressed_normed new_query_vec in
  let asort := nearest sims k in
  asort.
End lsi.

(** * Vocabulary of the properties

    Loop states, closed forms of what the loops compute, and the readings
    of the statements that the code does not satisfy. *)

(** The dict after the first [n] rounds of the loop. *)
Definition doc_ids_upto (doc_lst : list string) (n : nat) : dict string nat :=
  foldl
    (λ inv_idx doc_idx,
       match doc_lst !! doc_idx with
       | Some doc => Dict.set doc doc_idx inv_idx
       | None => inv_idx
       end)
    [] (seq 0 n).

(** The reading of C4 as it is stated: the id of a text is the position of
    its first occurrence. *)
Definition ids_first_seen (doc_lst : list string) : Prop :=
  ∀ t i, Dict.get (build_doc_inverted_index doc_lst) t = Some i →
         doc_lst !! i = Some t ∧ ∀ j, j < i → doc_lst !! j ≠ Some t.

(** What the index holds for term [t] after the documents [doc_lst]: one
    entry per document of the sequence that contains [t], in sequence
    order. *)
Definition postings_of {P} (entry : nat → list string → string → P)
    (doc_inv_idx : dict string nat) (t : string) (doc_lst : list string) : list P :=
  omap
    (λ doc,
       if decide (t ∈ tokenize doc)
       then (λ doc_idx, entry doc_idx (tokenize doc) t) <$> Dict.get doc_inv_idx doc
       else None)
    doc_lst.

(** The posting of the frequency index. *)
Definition freq_entry (doc_idx : nat) (doc_tokenized : list string) (tok : string)
  : nat * nat := (doc_idx, count tok doc_tokenized).

(** A posting list grown by [l]. *)
Definition extend {P} (o : option (list P)) (l : list P) : option (list P) :=
  match l with
  | [] => o
  | _ => Some (default [] o ++ l)
  end.

(** The loop shared by the two builders. *)
Definition index_docs `{SetOrder} {P : Type}
    (entry : nat → list string → string → P) (doc_inv_idx : dict string nat)
    (doc_lst : list string) (idx : dict string (list P))
  : result (dict string (list P)) :=
  for_each
    (λ token_inv_idx doc,
       let! doc_idx := Dict.getitem doc_inv_idx doc in
       Ok (foldl
             (λ idx tok, add_posting (entry doc_idx (tokenize doc) tok) idx tok)
             token_inv_idx (set_order (tokenize doc))))
    doc_lst idx.

(** One contribution [(doc, x)] added to the running totals. *)
Definition add_score (doc_scores : dict nat R) (c : nat * R) : dict nat R :=
  Dict.set c.1 (Dict.get_default doc_scores c.1 0 + c.2)%R doc_scores.

(** The running totals after the contributions [cs]. *)
Definition tally (cs : list (nat * R)) (doc_scores : dict nat R) : dict nat R :=
  foldl add_score doc_scores cs.

(** The product a posting of [word] with frequency [tf] contributes. *)
Definition weight (q : dict string nat) (idf : dict string R) (word : string)
    (tf : nat) : R :=
  (INR (tf * Dict.get_default q word 0%nat) * Dict.get_default idf word 0 ^ 2)%R.

(** The contributions of the postings of [word], none when [word] is not
    a query term. *)
Definition word_contribs (q : dict string nat)
    (index : dict string (list (nat * nat))) (idf : dict string R)
    (word : string) : list (nat * R) :=
  if Dict.mem q word
  then (λ p, (p.1, weight q idf word p.2)) <$> Dict.get_default index word []
  else [].

(** All contributions, in the order the scorer meets them. *)
Definition contribs (q : dict string nat)
    (index : dict string (list (nat * nat))) (idf : dict string R)
  : list (nat * R) :=
  Dict.keys index ≫= word_contribs q index idf.

(** A query term with postings in the index and no idf value. *)
Definition pruned_hit (q : dict string nat)
    (index : dict string (list (nat * nat))) (idf : dict string R)
    (word : string) : Prop :=
  word ∈ Dict.keys q ∧ (word ∉ Dict.keys idf) ∧
  (∃ p postings, Dict.get index word = Some (p :: postings)).

(** The sum of the contributions to document [d]. *)
Definition doc_total (d : nat) (cs : list (nat * R)) : R :=
  sum_R (snd <$> filter (λ c, c.1 = d) cs).

(** The outer loop from some point on. *)
Definition scan (q : dict string nat) (index : dict string (list (nat * nat)))
    (idf : dict string R) (ws : list string) (s : dict nat R)
  : result (dict nat R) :=
  for_each
    (λ doc_scores word,
       let! word_docs := Dict.getitem index word in
       if Dict.mem q word then
         for_each (score_posting q idf word) word_docs doc_scores
       else Ok doc_scores)
    ws s.

(** The documents that share a term with the query according to the index. *)
Definition shares_term (terms : list string)
    (index : dict string (list (nat * nat))) (d : nat) : Prop :=
  ∃ word postings tf,
    word ∈ terms ∧ Dict.get index word = Some postings ∧ (d, tf) ∈ postings.

(** [a] is ranked no lower than [b]. *)
Definition ge_score (a b : R * nat) : Prop := (b.1 <= a.1)%R.

(** What the squared query norm sums: one square per token of the query
    (repeated tokens repeat their square) that has an idf value. *)
Definition query_norm_terms (idf : dict string R) (q : dict string nat)
    (tokens : list string) : list R :=
  (λ t, (Dict.get_default idf t 0 * INR (Dict.get_default q t 0%nat)) ^ 2)%R
    <$> filter (λ t, t ∈ Dict.keys idf) tokens.

(** The cosine of document [d], from the numerators [num_vals]. *)
Definition cosine (num_vals : dict nat R) (query_norm_m : R) (doc_norms : list R)
    (d : nat) : R * nat :=
  (Dict.get_default num_vals d 0 / (sqrt query_norm_m * entry doc_norms d), d)%R.

(** The loop of [index_search] over the scored documents. *)
Definition rank_loop (num_vals : dict nat R) (query_norm_m : R)
    (doc_norms : list R) (docs : list nat) (results : list (R * nat))
  : result (list (R * nat)) :=
  for_each
    (λ results doc,
       let! num := Dict.getitem num_vals doc in
       let! norm := array_getitem doc_norms doc in
       let cos_sim := (num / (sqrt query_norm_m * norm))%R in
       Ok (results ++ [(cos_sim, doc)]))
    docs results.

(** The reading of C2 as it is stated: the ranked documents are exactly
    those whose numerator is not zero. *)
Definition ranks_nonzero_numerators (query : string)
    (index : dict string (list (nat * nat))) (idf : dict string R)
    (doc_norms : list R) : Prop :=
  let tokens := tokenize query in
  let q := Counter tokens in
  (∀ word, word ∈ tokens → word ∈ Dict.keys index → word ∈ Dict.keys idf) →
  sqrt (sum_R (query_norm_terms idf q tokens)) ≠ 0%R →
  (∀ d, shares_term tokens index d → d < length doc_norms ∧ entry doc_norms d ≠ 0%R) →
  ∃ num_vals results,
    accumulate_dot_scores q index idf = Ok num_vals ∧
    index_search query index idf doc_norms accumulate_dot_scores tokenize
      = Ok results ∧
    ∀ d, d ∈ results.*2 ↔ ∃ x, Dict.get num_vals d = Some x ∧ x ≠ 0%R.

(** The idf value [compute_idf] gives to [term], if any. *)
Definition idf_value {P} (inv_idx : dict string (list P)) (n_docs min_df : nat)
    (max_df_ratio : R) (term : string) : option R :=
  match Dict.get inv_idx term with
  | Some postings =>
      let df := length postings in
      if (min_df <=? df) && Rltb (INR df / INR n_docs) max_df_ratio
      then Some (log2 (INR n_docs / INR (1 + df)))
      else None
  | None => None
  end.

(** The loop of [compute_idf] from some point on. *)
Definition idf_loop {P} (inv_idx : dict string (list P)) (n_docs min_df : nat)
    (max_df_ratio : R) (terms : list string) (idf : dict string R)
  : result (dict string R) :=
  for_each
    (λ idf_dict term,
       let! postings := Dict.getitem inv_idx term in
       let df := length postings in
       if min_df <=? df then
         if n_docs =? 0 then Raise ZeroDivisionError
         else if Rltb (INR df / INR n_docs) max_df_ratio then
           let idf_in := (INR n_docs / INR (1 + df))%R in
           Ok (Dict.set term (log2 idf_in) idf_dict)
         else Ok idf_dict
       else Ok idf_dict)
    terms idf.

(** The [(tf, idf)] pairs that the idf entry [wv] adds to document [d]. *)
Definition word_entries (index : dict string (list (nat * nat))) (d : nat)
    (wv : string * R) : list (nat * R) :=
  (λ p, (p.2, wv.2)) <$> filter (λ p, p.1 = d) (Dict.get_default index wv.1 []).

(** The [(tf, idf)] pairs of document [d], in the order of the idf table. *)
Definition doc_words (index : dict string (list (nat * nat)))
    (idf : dict string R) (d : nat) : list (nat * R) :=
  idf ≫= word_entries index d.

(** One summand of a squared document norm. *)
Definition sq_tfidf (e : nat * R) : R := ((INR e.1 * e.2) ^ 2)%R.

(** The collection of the worked example. *)
Definition cat_docs : list string :=
  ["the cat sat"; "the dog sat on the mat"; "cats and dogs"].

(** The posting list of [t] over [cat_docs]. *)
Definition cat_postings (t : string) : list (nat * nat) :=
  (if decide (t ∈ ["the"; "cat"; "sat"])
   then [(0, count t ["the"; "cat"; "sat"])] else []) ++
  (if decide (t ∈ ["the"; "dog"; "sat"; "on"; "the"; "mat"])
   then [(1, count t ["the"; "dog"; "sat"; "on"; "the"; "mat"])] else []) ++
  (if decide (t ∈ ["cats"; "and"; "dogs"])
   then [(2, count t ["cats"; "and"; "dogs"])] else []).

(** The idf of "cat": one document of three holds it. *)
Definition cat_idf : R := log2 (INR 3 / INR (1 + 1)).

(** The score a ranking gives to document [d]: that of its entry, and 0
    for a document it does not list, whose dot product with the query has
    no term. *)
Fixpoint score_of (results : list (R * nat)) (d : nat) : R :=
  match results with
  | [] => 0%R
  | (s, d') :: results' => if decide (d' = d) then s else score_of results' d
  end.

(** The dot product of two embeddings. *)
Fixpoint dot (u v : list R) : R :=
  match u, v with
  | x :: u', y :: v' => (x * y + dot u' v')%R
  | _, _ => 0%R
  end.


(** ** Vocabulary of the further properties *)

(** Every character of [s] is in [[a-z]]. *)
Fixpoint all_az (s : string) : bool :=
  match s with
  | EmptyString => true
  | String c s' => is_az c && all_az s'
  end.

(** A non-empty run of lowercase letters. *)
Definition is_word (t : string) : Prop := t ≠ EmptyString ∧ all_az t = true.

(** [" ".join(ws)] *)
Definition join_words (ws : list string) : string := String.concat " " ws.

(** The posting of the boolean index. *)
Definition id_entry (doc_idx : nat) (doc_tokenized : list string) (tok : string)
  : nat := doc_idx.

(** The documents of [doc_lst] that hold the term [t], repeated texts
    repeated. *)
Definition docs_with (t : string) (doc_lst : list string) : list string :=
  filter (λ doc, t ∈ tokenize doc) doc_lst.

(** The index with every posting mapped through [f]. *)
Definition map_postings {P Q} (f : P → Q) (idx : dict string (list P))
  : dict string (list Q) :=
  (λ kv : string * list P, (kv.1, f <$> kv.2)) <$> (idx : list (string * list P)).

(** Position [i] is the last occurrence of a text of [doc_lst] that shares
    a token with [query]. *)
Definition shares_token (query : string) (doc_lst : list string) (i : nat)
  : Prop :=
  ∃ doc t,
    doc_lst !! i = Some doc ∧ (∀ j, i < j → doc_lst !! j ≠ Some doc) ∧
    t ∈ tokenize query ∧ t ∈ tokenize doc.

(** * Properties *)

Example tokenize_ex : tokenize "The cat-sat, 2 Dogs!" = ["the"; "cat"; "sat"; "dogs"].
Proof. reflexivity. Qed.

Example build_doc_ex :
  build_doc_inverted_index ["a"; "b"; "a"] = [("a", 2); ("b", 1)].
Proof. reflexivity. Qed.

(** ** Dictionaries *)

Section dict_facts.
Context {K V : Type} `{EqDecision K}.
Implicit Types (d : dict K V) (k : K) (v : V).

Lemma get_set_eq d k v : Dict.get (Dict.set k v d) k = Some v.
Proof.
  induction d as [|[k' v'] d IH]; simpl.
  - by rewrite decide_True.
  - destruct (decide (k = k')) as [->|Hne]; simpl.
    + by rewrite decide_True.
    + by rewrite decide_False.
Qed.

Lemma get_set_ne d k k' v :
  k ≠ k' → Dict.get (Dict.set k v d) k' = Dict.get d k'.
Proof.
  intros Hne. induction d as [|[k0 v0] d IH]; simpl.
  - by rewrite decide_False.
  - destruct (decide (k = k0)) as [->|Hk]; simpl.
    + by rewrite !decide_False.
    + destruct (decide (k' = k0)); [done|apply IH].
Qed.

Lemma get_set d k k' v :
  Dict.get (Dict.set k v d) k' = if decide (k = k') then Some v else Dict.get d k'.
Proof.
  destruct (decide (k = k')) as [<-|Hne];
    [apply get_set_eq|by apply get_set_ne].
Qed.

Lemma elem_of_keys d k : k ∈ Dict.keys d ↔ is_Some (Dict.get d k).
Proof.
  unfold Dict.keys. induction d as [|[k' v'] d IH]; simpl.
  - split; [by intros ?%elem_of_nil|by intros [? ?]].
  - rewrite elem_of_cons, IH. destruct (decide (k = k')) as [->|Hne].
    + split; eauto.
    + split; [by intros [?|?]|by right].
Qed.

Lemma not_elem_of_keys d k : k ∉ Dict.keys d ↔ Dict.get d k = None.
Proof. rewrite elem_of_keys, eq_None_not_Some. done. Qed.

Lemma mem_true d k : Dict.mem d k = true ↔ k ∈ Dict.keys d.
Proof. unfold Dict.mem. rewrite bool_decide_eq_true, elem_of_keys. done. Qed.

Lemma mem_false d k : Dict.mem d k = false ↔ k ∉ Dict.keys d.
Proof. unfold Dict.mem. rewrite bool_decide_eq_false, elem_of_keys. done. Qed.

Lemma keys_set_Some d k v :
  is_Some (Dict.get d k) → Dict.keys (Dict.set k v d) = Dict.keys d.
Proof.
  unfold Dict.keys. induction d as [|[k' v'] d IH]; simpl.
  - by intros [? ?].
  - destruct (decide (k = k')) as [->|Hne]; csimpl; [done|].
    intros Hs. f_equal. by apply IH.
Qed.

Lemma keys_set_None d k v :
  Dict.get d k = None → Dict.keys (Dict.set k v d) = Dict.keys d ++ [k].
Proof.
  unfold Dict.keys. induction d as [|[k' v'] d IH]; simpl; [done|].
  destruct (decide (k = k')) as [->|Hne]; csimpl; [done|].
  intros Hs. f_equal. by apply IH.
Qed.

Lemma NoDup_keys_set d k v :
  NoDup (Dict.keys d) → NoDup (Dict.keys (Dict.set k v d)).
Proof.
  intros Hnd. destruct (Dict.get d k) as [v'|] eqn:Hget.
  - by rewrite keys_set_Some.
  - rewrite keys_set_None by done. apply NoDup_app. split_and!; [done| |apply NoDup_singleton].
    intros x Hx ->%list_elem_of_singleton. by apply not_elem_of_keys in Hget.
Qed.

Lemma elem_of_keys_set d k k' v :
  k' ∈ Dict.keys (Dict.set k v d) ↔ k' = k ∨ k' ∈ Dict.keys d.
Proof.
  rewrite !elem_of_keys, get_set. destruct (decide (k = k')) as [->|Hne].
  - split; eauto.
  - split; [by right|]. intros [->|?]; done.
Qed.

Lemma get_default_Some d k v dflt :
  Dict.get d k = Some v → Dict.get_default d k dflt = v.
Proof. intros Hget. unfold Dict.get_default. by rewrite Hget. Qed.

Lemma get_default_None d k dflt :
  Dict.get d k = None → Dict.get_default d k dflt = dflt.
Proof. intros Hget. unfold Dict.get_default. by rewrite Hget. Qed.

Lemma getitem_Ok d k v : Dict.getitem d k = Ok v ↔ Dict.get d k = Some v.
Proof.
  unfold Dict.getitem. destruct (Dict.get d k); split; intros; simplify_eq; done.
Qed.

Lemma getitem_keys d k : k ∈ Dict.keys d → ∃ v, Dict.getitem d k = Ok v ∧ Dict.get d k = Some v.
Proof.
  intros [v Hv]%elem_of_keys. exists v. split; [by apply getitem_Ok|done].
Qed.
End dict_facts.

(** ** Collection indexer: document ids *)

Section doc_ids.
Implicit Types (doc_lst : list string) (t : string).

Lemma doc_ids_upto_S doc_lst n doc :
  doc_lst !! n = Some doc →
  doc_ids_upto doc_lst (S n) = Dict.set doc n (doc_ids_upto doc_lst n).
Proof.
  intros Hn. unfold doc_ids_upto. rewrite seq_S, foldl_app. simpl. by rewrite Hn.
Qed.

Lemma doc_ids_upto_get doc_lst n t i :
  n ≤ length doc_lst →
  Dict.get (doc_ids_upto doc_lst n) t = Some i ↔
  i < n ∧ doc_lst !! i = Some t ∧ ∀ j, i < j → j < n → doc_lst !! j ≠ Some t.
Proof.
  induction n as [|n IH]; intros Hn.
  - simpl. split; [done|]. intros [? _]. lia.
  - destruct (lookup_lt_is_Some_2 doc_lst n) as [doc Hdoc]; [lia|].
    rewrite (doc_ids_upto_S _ _ doc) by done.
    rewrite get_set. destruct (decide (doc = t)) as [->|Hne].
    + split.
      * intros [= <-]. split_and!; [lia|done|]. intros j ??. lia.
      * intros (Hi & Hit & Hlast). f_equal.
        destruct (decide (i = n)) as [|Hin]; [done|].
        exfalso. apply (Hlast n); [lia|lia|done].
    + rewrite IH by lia. split.
      * intros (Hi & Hit & Hlast). split_and!; [lia|done|].
        intros j Hij Hj. destruct (decide (j = n)) as [->|].
        -- rewrite Hdoc. congruence.
        -- apply Hlast; lia.
      * intros (Hi & Hit & Hlast). split_and!; [|done|].
        -- destruct (decide (i = n)) as [->|]; [|lia]. congruence.
        -- intros j ??. apply Hlast; lia.
Qed.
End doc_ids.

(** C4, as stated, fails: in ["a"; "b"; "a"] the text "a" first occurs at
    position 0, but the second assignment overwrites its id with 2. *)
Lemma build_doc_inverted_index_not_first_seen :
  ¬ ids_first_seen ["a"; "b"; "a"].
Proof.
  intros Hfirst. destruct (Hfirst "a" 2) as [_ Hno]; [reflexivity|].
  by apply (Hno 0); [lia|].
Qed.

Lemma build_doc_inverted_index_get (doc_lst : list string) (t : string) (i : nat) :
  Dict.get (build_doc_inverted_index doc_lst) t = Some i ↔
  doc_lst !! i = Some t ∧ ∀ j, i < j → doc_lst !! j ≠ Some t.
Proof.
  change (build_doc_inverted_index doc_lst)
    with (doc_ids_upto doc_lst (length doc_lst)).
  rewrite doc_ids_upto_get by done. split.
  - intros (_ & Hi & Hlast). split; [done|]. intros j Hij Hj.
    apply (Hlast j Hij); [by eapply lookup_lt_Some|done].
  - intros [Hi Hlast]. split_and!; [by eapply lookup_lt_Some|done|].
    intros j Hij _. by apply Hlast.
Qed.

(** When the texts are pairwise distinct the id is the position. *)
Lemma build_doc_inverted_index_distinct (doc_lst : list string) (t : string) (i : nat) :
  NoDup doc_lst →
  Dict.get (build_doc_inverted_index doc_lst) t = Some i ↔ doc_lst !! i = Some t.
Proof.
  intros Hnd. rewrite build_doc_inverted_index_get. split; [by intros [? _]|].
  intros Hi. split; [done|]. intros j Hij Hj.
  pose proof (NoDup_lookup _ _ _ _ Hnd Hi Hj). lia.
Qed.

Lemma build_doc_inverted_index_keys (doc_lst : list string) (t : string) :
  t ∈ Dict.keys (build_doc_inverted_index doc_lst) ↔ t ∈ doc_lst.
Proof.
  rewrite elem_of_keys. split.
  - intros [i [Hi _]%build_doc_inverted_index_get].
    by eapply list_elem_of_lookup_2.
  - intros Ht. induction doc_lst as [|d l IH] using rev_ind; [by apply elem_of_nil in Ht|].
    destruct (decide (d = t)) as [->|Hne].
    + exists (length l). apply build_doc_inverted_index_get. split.
      * by rewrite lookup_app_r, Nat.sub_diag by lia.
      * intros j Hj Hlook. apply lookup_lt_Some in Hlook.
        rewrite length_app in Hlook. simpl in Hlook. lia.
    + apply elem_of_app in Ht as [Ht|Ht%list_elem_of_singleton]; [|done].
      destruct (IH Ht) as [i [Hi Hlast]%build_doc_inverted_index_get].
      exists i. apply build_doc_inverted_index_get. split.
      * by rewrite lookup_app_l by (by eapply lookup_lt_Some).
      * intros j Hij Hj. destruct (decide (j < length l)).
        -- rewrite lookup_app_l in Hj by done. by eapply Hlast.
        -- rewrite lookup_app_r in Hj by lia.
           destruct (j - length l) as [|m] eqn:E; simpl in Hj; [congruence|].
           by rewrite lookup_nil in Hj.
Qed.

(** C4, amended: [build_doc_inverted_index] gives every text of the sequence
    the position of its last occurrence as id, and has no other key; the
    ids are the positions themselves when the texts are pairwise distinct. *)
Theorem build_doc_inverted_index_last_seen (doc_lst : list string) :
  (∀ t i, Dict.get (build_doc_inverted_index doc_lst) t = Some i ↔
          doc_lst !! i = Some t ∧ ∀ j, i < j → doc_lst !! j ≠ Some t) ∧
  (∀ t, t ∈ Dict.keys (build_doc_inverted_index doc_lst) ↔ t ∈ doc_lst) ∧
  (NoDup doc_lst →
   ∀ t i, Dict.get (build_doc_inverted_index doc_lst) t = Some i ↔
          doc_lst !! i = Some t).
Proof.
  split_and!.
  - apply build_doc_inverted_index_get.
  - apply build_doc_inverted_index_keys.
  - intros Hnd t i. by apply build_doc_inverted_index_distinct.
Qed.

Lemma build_doc_inverted_index_last_seen_witness :
  NoDup ["a"; "b"] ∧
  (∀ t i, Dict.get (build_doc_inverted_index ["a"; "b"]) t = Some i ↔
          ["a"; "b"] !! i = Some t).
Proof.
  assert (NoDup ["a"; "b"]) as Hnd.
  { apply NoDup_cons. split.
    - intros Hin. apply list_elem_of_singleton in Hin. discriminate Hin.
    - apply NoDup_singleton. }
  split; [exact Hnd|].
  exact (proj2 (proj2 (build_doc_inverted_index_last_seen ["a"; "b"])) Hnd).
Defined.

(** ** Collection indexer: posting lists *)

Section indexer_facts.
Context `{SetOrder} {P : Type}.
Implicit Types (idx : dict string (list P)) (t tok : string).

Lemma add_posting_get (e : P) idx tok t :
  Dict.get (add_posting e idx tok) t =
  if decide (tok = t) then Some (default [] (Dict.get idx tok) ++ [e])
  else Dict.get idx t.
Proof.
  unfold add_posting. destruct (Dict.get idx tok) as [ps|] eqn:Hget;
    rewrite get_set; by destruct (decide (tok = t)).
Qed.

Lemma add_posting_keys_NoDup (e : P) idx tok :
  NoDup (Dict.keys idx) → NoDup (Dict.keys (add_posting e idx tok)).
Proof.
  unfold add_posting. destruct (Dict.get idx tok); apply NoDup_keys_set.
Qed.

Lemma add_postings_get (e : string → P) (l : list string) idx t :
  NoDup l →
  Dict.get (foldl (λ idx tok, add_posting (e tok) idx tok) idx l) t =
  if decide (t ∈ l) then Some (default [] (Dict.get idx t) ++ [e t])
  else Dict.get idx t.
Proof.
  intros Hnd. revert idx. induction Hnd as [|x l Hx Hnd IH]; intros idx; simpl.
  - done.
  - rewrite IH, !add_posting_get.
    destruct (decide (x = t)) as [->|Hne], (decide (t ∈ l)) as [Hl|Hl],
      (decide (t ∈ _ :: l)) as [Hxl|Hxl]; try done.
    + destruct Hxl. apply list_elem_of_here.
    + destruct Hxl. by apply list_elem_of_further.
    + apply elem_of_cons in Hxl as [?|?]; done.
Qed.

Lemma add_postings_keys_NoDup (e : string → P) (l : list string) idx :
  NoDup (Dict.keys idx) →
  NoDup (Dict.keys (foldl (λ idx tok, add_posting (e tok) idx tok) idx l)).
Proof.
  revert idx. induction l as [|x l IH]; intros idx Hnd; simpl; [done|].
  by apply IH, add_posting_keys_NoDup.
Qed.

Lemma extend_snoc (o : option (list P)) (x : P) (l : list P) :
  extend (Some (default [] o ++ [x])) l = extend o (x :: l).
Proof. destruct l; simpl; [done|]. by rewrite <-app_assoc. Qed.

Lemma index_docs_get entry doc_inv_idx doc_lst idx idx' t :
  index_docs entry doc_inv_idx doc_lst idx = Ok idx' →
  Dict.get idx' t = extend (Dict.get idx t) (postings_of entry doc_inv_idx t doc_lst).
Proof.
  unfold index_docs.
  revert idx. induction doc_lst as [|doc doc_lst IH]; intros idx; simpl.
  - by intros [= ->].
  - unfold Dict.getitem. destruct (Dict.get doc_inv_idx doc) as [i|]; simpl; [|done].
    intros Hrest. rewrite (IH _ Hrest).
    rewrite add_postings_get by apply set_order_NoDup.
    destruct (decide (t ∈ tokenize doc)) as [Hin|Hnin].
    + rewrite decide_True by (by apply set_order_elem). simpl. apply extend_snoc.
    + rewrite decide_False; [done|]. by rewrite set_order_elem.
Qed.

Lemma index_docs_keys_NoDup entry doc_inv_idx doc_lst idx idx' :
  NoDup (Dict.keys idx) →
  index_docs entry doc_inv_idx doc_lst idx = Ok idx' →
  NoDup (Dict.keys idx').
Proof.
  unfold index_docs.
  revert idx. induction doc_lst as [|doc doc_lst IH]; intros idx Hnd; simpl.
  - by intros [= <-].
  - destruct (Dict.getitem doc_inv_idx doc) as [i|]; simpl; [|done].
    apply IH. by apply add_postings_keys_NoDup.
Qed.

Lemma index_docs_total entry doc_inv_idx doc_lst idx :
  (∀ doc, doc ∈ doc_lst → doc ∈ Dict.keys doc_inv_idx) →
  ∃ idx', index_docs entry doc_inv_idx doc_lst idx = Ok idx'.
Proof.
  unfold index_docs.
  revert idx. induction doc_lst as [|doc doc_lst IH]; intros idx Hall; simpl.
  - by eexists.
  - destruct (getitem_keys doc_inv_idx doc) as (i & -> & _).
    { apply Hall, list_elem_of_here. }
    simpl. apply IH. intros d Hd. by apply Hall, list_elem_of_further.
Qed.
End indexer_facts.

Section first_seen_facts.
Lemma first_seen_elem xs x : x ∈ first_seen xs ↔ x ∈ xs.
Proof.
  induction xs as [|y xs IH]; simpl; [done|].
  rewrite !elem_of_cons, list_elem_of_filter, IH.
  destruct (decide (x = y)) as [->|Hne]; [tauto|]. tauto.
Qed.

Lemma first_seen_NoDup xs : NoDup (first_seen xs).
Proof.
  induction xs as [|y xs IH]; simpl; [constructor|].
  constructor; [|by apply NoDup_filter].
  rewrite list_elem_of_filter. by intros [Hne _].
Qed.
End first_seen_facts.

#[export] Instance first_seen_order : SetOrder :=
  {| set_order := first_seen;
     set_order_NoDup := first_seen_NoDup;
     set_order_elem := first_seen_elem |}.

Section posting_lists.
Context `{SetOrder}.
Implicit Types (doc_lst : list string) (t : string).

Lemma with_freq_get doc_lst doc_inv_idx idx t :
  build_token_inverted_index_with_freq doc_lst doc_inv_idx = Ok idx →
  Dict.get idx t = extend None (postings_of freq_entry doc_inv_idx t doc_lst).
Proof. intros Hb. by apply (index_docs_get freq_entry _ _ [] idx t) in Hb. Qed.

Lemma with_freq_keys_NoDup doc_lst doc_inv_idx idx :
  build_token_inverted_index_with_freq doc_lst doc_inv_idx = Ok idx →
  NoDup (Dict.keys idx).
Proof. apply (index_docs_keys_NoDup freq_entry); constructor. Qed.

Lemma with_freq_total doc_lst :
  ∃ idx, build_token_inverted_index_with_freq doc_lst
           (build_doc_inverted_index doc_lst) = Ok idx.
Proof.
  apply (index_docs_total freq_entry). intros doc Hdoc.
  by apply build_doc_inverted_index_keys.
Qed.

Lemma count_pos t (toks : list string) : t ∈ toks → 1 ≤ count t toks.
Proof.
  intros Ht. unfold count.
  assert (t ∈ filter (λ y, y = t) toks) as Hin by (by apply list_elem_of_filter).
  destruct (filter _ toks); [by apply elem_of_nil in Hin|simpl; lia].
Qed.

(** Every stored term frequency is at least 1. *)
Lemma postings_freq_pos doc_inv_idx t doc_lst :
  Forall (λ p, 1 ≤ p.2) (postings_of freq_entry doc_inv_idx t doc_lst).
Proof.
  apply Forall_forall. intros [i c]. unfold postings_of.
  rewrite list_elem_of_omap. intros (doc & _ & Hdoc).
  destruct (decide (t ∈ tokenize doc)) as [Ht|]; [|done].
  unfold freq_entry in Hdoc.
  destruct (Dict.get doc_inv_idx doc); simplify_eq/=. by apply count_pos.
Qed.

Lemma StronglySorted_lt_seq k n : StronglySorted lt (seq k n).
Proof.
  revert k. induction n as [|n IH]; intros k; simpl; constructor; [apply IH|].
  apply Forall_forall. intros j [? _]%elem_of_seq. lia.
Qed.

Lemma StronglySorted_sublist {A} (R : relation A) (l1 l2 : list A) :
  l1 `sublist_of` l2 → StronglySorted R l2 → StronglySorted R l1.
Proof.
  induction 1 as [|x l1 l2 Hsub IH|x l1 l2 Hsub IH]; intros Hs; [done|..].
  - apply StronglySorted_inv in Hs as [Hs Hall]. constructor; [by apply IH|].
    apply Forall_forall. intros y Hy. rewrite Forall_forall in Hall.
    apply Hall. by eapply elem_of_sublist.
  - apply StronglySorted_inv in Hs as [Hs _]. by apply IH.
Qed.

(** When every document of [doc_lst] is mapped to its position, the ids
    of a posting list are a subsequence of the positions. *)
Lemma postings_ids_sublist doc_inv_idx t doc_lst k :
  (∀ j doc, doc_lst !! j = Some doc → Dict.get doc_inv_idx doc = Some (k + j)) →
  (postings_of freq_entry doc_inv_idx t doc_lst).*1 `sublist_of` seq k (length doc_lst).
Proof.
  revert k. induction doc_lst as [|doc doc_lst IH]; intros k Hpos; simpl.
  - constructor.
  - assert ((postings_of freq_entry doc_inv_idx t doc_lst).*1
              `sublist_of` seq (S k) (length doc_lst)) as Hrest.
    { apply IH. intros j d Hj. rewrite (Hpos (S j) d Hj). f_equal. lia. }
    rewrite (Hpos 0 doc eq_refl), Nat.add_0_r.
    destruct (decide (t ∈ tokenize doc)); csimpl.
    + by apply sublist_skip.
    + by apply sublist_cons.
Qed.

(** The invariant of the inverted index, for collections of pairwise
    distinct texts: strictly ascending document ids (hence at most one
    entry per document) and term frequencies of at least 1. *)
Lemma posting_lists_distinct doc_lst idx t postings :
  NoDup doc_lst →
  build_token_inverted_index_with_freq doc_lst (build_doc_inverted_index doc_lst)
    = Ok idx →
  Dict.get idx t = Some postings →
  StronglySorted lt postings.*1 ∧ Forall (λ p, 1 ≤ p.2) postings.
Proof.
  intros Hnd Hb Hget. rewrite (with_freq_get _ _ _ _ Hb) in Hget.
  assert (postings = postings_of freq_entry (build_doc_inverted_index doc_lst) t doc_lst)
    as ->.
  { destruct (postings_of _ _ _ _); simplify_eq/=; done. }
  split; [|apply postings_freq_pos].
  eapply StronglySorted_sublist; [|apply (StronglySorted_lt_seq 0 (length doc_lst))].
  apply postings_ids_sublist. intros j doc Hj.
  by apply build_doc_inverted_index_distinct.
Qed.

(** C3 fails on a collection that repeats a text: both copies of "x y"
    carry the id 2 of the last copy, so the posting list of "x" lists
    document 2 twice, around document 1. *)
Theorem posting_list_repeated_text :
  ∃ idx,
    build_token_inverted_index_with_freq ["x y"; "x"; "x y"]
      (build_doc_inverted_index ["x y"; "x"; "x y"]) = Ok idx ∧
    Dict.get idx "x" = Some [(2, 1); (1, 1); (2, 1)].
Proof.
  destruct (with_freq_total ["x y"; "x"; "x y"]) as [idx Hidx].
  exists idx. split; [done|]. by rewrite (with_freq_get _ _ _ _ Hidx).
Qed.
End posting_lists.

(** ** Tokenizer: lowering twice *)

Lemma lower_char_idem (c : ascii) : lower_char (lower_char c) = lower_char c.
Proof. by destruct c as [[] [] [] [] [] [] [] []]. Qed.

Lemma lower_idem (s : string) : lower (lower s) = lower s.
Proof. induction s as [|c s IH]; simpl; [done|]. by rewrite lower_char_idem, IH. Qed.

Lemma tokenize_lower (s : string) : tokenize (lower s) = tokenize s.
Proof. unfold tokenize. by rewrite lower_idem. Qed.

(** ** Boolean matcher *)

Section boolean_facts.
Implicit Types (idx : dict string (list nat)) (results : gset nat).

Lemma boolean_loop_elem idx toks results d :
  d ∈ boolean_loop idx toks results → d ∈ results.
Proof.
  revert results. induction toks as [|tok toks IH]; intros results; simpl.
  - by rewrite elem_of_elements.
  - destruct (Dict.get idx tok) as [postings|]; [|by intros ?%elem_of_nil].
    intros Hd%IH. by apply elem_of_intersection in Hd as [? _].
Qed.

Lemma boolean_loop_NoDup idx toks results :
  NoDup (boolean_loop idx toks results).
Proof.
  revert results. induction toks as [|tok toks IH]; intros results; simpl.
  - apply NoDup_elements.
  - destruct (Dict.get idx tok); [apply IH|constructor].
Qed.

Lemma boolean_search_elem query idx num_docs d :
  d ∈ boolean_search query idx num_docs → d < num_docs.
Proof.
  intros Hd%boolean_loop_elem. apply elem_of_list_to_set, elem_of_seq in Hd. lia.
Qed.
End boolean_facts.

(** C7: the result of [boolean_search] has at most [n] entries, and every
    returned document id is below [n]. *)
Theorem boolean_search_bounded (q : string) (idx : dict string (list nat)) (n : nat) :
  length (boolean_search q idx n) ≤ n ∧
  ∀ d, d ∈ boolean_search q idx n → 0 ≤ d < n.
Proof.
  split.
  - rewrite <-(length_seq n 0) at 2. apply submseteq_length, NoDup_submseteq.
    + apply boolean_loop_NoDup.
    + intros d Hd%boolean_search_elem. apply elem_of_seq. lia.
  - intros d Hd%boolean_search_elem. lia.
Qed.

(** ** Scorer *)

Section scorer_facts.
Context (q : dict string nat) (index : dict string (list (nat * nat)))
        (idf : dict string R).
Implicit Types (s : dict nat R) (word : string) (ws : list string).

Lemma tally_app (cs1 cs2 : list (nat * R)) s :
  tally (cs1 ++ cs2) s = tally cs2 (tally cs1 s).
Proof. apply foldl_app. Qed.

Lemma word_contribs_get word postings :
  Dict.get index word = Some postings →
  word_contribs q index idf word =
  if Dict.mem q word
  then (λ p, (p.1, weight q idf word p.2)) <$> postings else [].
Proof. intros Hget. unfold word_contribs, Dict.get_default. by rewrite Hget. Qed.

Lemma score_postings_ok word qc x postings s :
  Dict.get q word = Some qc → Dict.get idf word = Some x →
  for_each (score_posting q idf word) postings s =
  Ok (tally ((λ p, (p.1, weight q idf word p.2)) <$> postings) s).
Proof.
  intros Hq Hidf. revert s. induction postings as [|[doc tf] ps IH]; intros s; [done|].
  simpl. unfold Dict.getitem. rewrite Hq, Hidf. simpl. rewrite IH. csimpl.
  unfold add_score, weight, Dict.get_default. simpl. by rewrite Hq, Hidf.
Qed.

Lemma score_postings_fail word qc p postings s :
  Dict.get q word = Some qc → Dict.get idf word = None →
  for_each (score_posting q idf word) (p :: postings) s = Raise KeyError.
Proof.
  intros Hq Hidf. destruct p as [doc tf]. simpl. unfold Dict.getitem.
  by rewrite Hq, Hidf.
Qed.

Lemma scan_cons word ws s postings :
  Dict.get index word = Some postings →
  scan q index idf (word :: ws) s =
  let! s' := (if Dict.mem q word
              then for_each (score_posting q idf word) postings s
              else Ok s) in scan q index idf ws s'.
Proof. intros Hget. unfold scan. simpl. unfold Dict.getitem. by rewrite Hget. Qed.

Lemma scan_ok ws s :
  (∀ word, word ∈ ws → word ∈ Dict.keys index) →
  (∀ word, word ∈ ws → ¬ pruned_hit q index idf word) →
  scan q index idf ws s = Ok (tally (ws ≫= word_contribs q index idf) s).
Proof.
  revert s. induction ws as [|word ws IH]; intros s Hkeys Hgood; [done|].
  destruct (proj1 (elem_of_keys index word)) as [postings Hget];
    [apply Hkeys, list_elem_of_here|].
  rewrite (scan_cons _ _ _ _ Hget). csimpl. rewrite tally_app.
  rewrite (word_contribs_get _ _ Hget).
  assert (∀ s', scan q index idf ws s' =
               Ok (tally (ws ≫= word_contribs q index idf) s')) as Hrest.
  { intros s'. apply IH; intros w Hw; [apply Hkeys|apply Hgood];
      by apply list_elem_of_further. }
  destruct (Dict.mem q word) eqn:Hmem; simpl; [|apply Hrest].
  apply mem_true in Hmem. destruct (proj1 (elem_of_keys q word) Hmem) as [qc Hq].
  destruct (Dict.get idf word) as [x|] eqn:Hidf.
  - rewrite (score_postings_ok _ _ _ _ _ Hq Hidf). simpl. apply Hrest.
  - destruct postings as [|p postings]; simpl; [apply Hrest|].
    destruct (Hgood word); [apply list_elem_of_here|].
    split_and!; [done|by apply not_elem_of_keys|by exists p, postings].
Qed.

Lemma scan_fail ws s word :
  (∀ word, word ∈ ws → word ∈ Dict.keys index) →
  word ∈ ws → pruned_hit q index idf word →
  scan q index idf ws s = Raise KeyError.
Proof.
  revert s. induction ws as [|w ws IH]; intros s Hkeys Hin Hbad;
    [by apply elem_of_nil in Hin|].
  destruct (proj1 (elem_of_keys index w)) as [postings Hget];
    [apply Hkeys, list_elem_of_here|].
  rewrite (scan_cons _ _ _ _ Hget).
  assert (∀ s', w ≠ word → scan q index idf ws s' = Raise KeyError) as Hrest.
  { intros s' Hne. apply IH; [|by apply elem_of_cons in Hin as [?|?]|done].
    intros w' Hw'. by apply Hkeys, list_elem_of_further. }
  destruct (Dict.mem q w) eqn:Hmem; simpl.
  - apply mem_true in Hmem. destruct (proj1 (elem_of_keys q w) Hmem) as [qc Hq].
    destruct (Dict.get idf w) as [x|] eqn:Hidf.
    + rewrite (score_postings_ok _ _ _ _ _ Hq Hidf). simpl. apply Hrest.
      intros ->. destruct Hbad as (_ & Hnot & _). by apply not_elem_of_keys in Hnot; simplify_eq.
    + destruct postings as [|p postings].
      * simpl. apply Hrest. intros ->. destruct Hbad as (_ & _ & ? & ? & ?). congruence.
      * by rewrite (score_postings_fail _ _ _ _ _ Hq Hidf).
  - apply Hrest. intros ->. destruct Hbad as (Hq & _). by apply mem_false in Hmem.
Qed.

Lemma accumulate_dot_scores_ok :
  (∀ word, ¬ pruned_hit q index idf word) →
  accumulate_dot_scores q index idf = Ok (tally (contribs q index idf) []).
Proof. intros Hgood. by apply scan_ok. Qed.

Lemma accumulate_dot_scores_fail word :
  pruned_hit q index idf word →
  accumulate_dot_scores q index idf = Raise KeyError.
Proof.
  intros Hbad. apply (scan_fail _ _ word); [done| |done].
  destruct Hbad as (_ & _ & p & ps & Hget). apply elem_of_keys. by rewrite Hget.
Qed.
End scorer_facts.

Section tally_facts.
Implicit Types (s : dict nat R) (cs : list (nat * R)) (d : nat).

Lemma tally_keys cs s d :
  d ∈ Dict.keys (tally cs s) ↔ d ∈ Dict.keys s ∨ d ∈ cs.*1.
Proof.
  revert s. induction cs as [|[d' x] cs IH]; intros s; csimpl.
  - rewrite elem_of_nil. tauto.
  - rewrite IH. unfold add_score. rewrite elem_of_keys_set, elem_of_cons. simpl. tauto.
Qed.

Lemma tally_keys_NoDup cs s :
  NoDup (Dict.keys s) → NoDup (Dict.keys (tally cs s)).
Proof.
  revert s. induction cs as [|c cs IH]; intros s Hnd; simpl; [done|].
  by apply IH, NoDup_keys_set.
Qed.

Lemma doc_total_cons d d' x cs :
  doc_total d ((d', x) :: cs) =
  if decide (d' = d) then (x + doc_total d cs)%R else doc_total d cs.
Proof.
  unfold doc_total. rewrite filter_cons. simpl.
  by destruct (decide (d' = d)).
Qed.

Lemma doc_total_app d cs1 cs2 :
  doc_total d (cs1 ++ cs2) = (doc_total d cs1 + doc_total d cs2)%R.
Proof.
  induction cs1 as [|[d' x] cs1 IH]; simpl.
  - unfold doc_total at 2. simpl. lra.
  - rewrite !doc_total_cons, IH. destruct (decide (d' = d)); lra.
Qed.

Lemma tally_get_default cs s d :
  Dict.get_default (tally cs s) d 0%R =
  (Dict.get_default s d 0 + doc_total d cs)%R.
Proof.
  revert s. induction cs as [|[d' x] cs IH]; intros s; simpl.
  - unfold doc_total. simpl. lra.
  - rewrite IH, doc_total_cons. unfold add_score, Dict.get_default. simpl.
    rewrite get_set. destruct (decide (d' = d)) as [->|]; simpl; lra.
Qed.

Lemma tally_get cs d x :
  Dict.get (tally cs []) d = Some x → x = doc_total d cs.
Proof.
  intros Hget. pose proof (tally_get_default cs [] d) as Hd.
  unfold Dict.get_default in Hd. rewrite Hget in Hd. simpl in Hd. lra.
Qed.
End tally_facts.

Lemma contribs_docs q index idf d :
  d ∈ (contribs q index idf).*1 ↔ shares_term (Dict.keys q) index d.
Proof.
  unfold contribs, shares_term. rewrite list_elem_of_fmap. split.
  - intros ([d' x] & -> & Hin). apply list_elem_of_bind in Hin as (word & Hin & Hword).
    unfold word_contribs in Hin. destruct (Dict.mem q word) eqn:Hmem;
      [|by apply elem_of_nil in Hin].
    apply list_elem_of_fmap in Hin as ([d0 tf] & [= -> ->] & Hin).
    apply elem_of_keys in Hword as [postings Hget].
    unfold Dict.get_default in Hin. rewrite Hget in Hin.
    exists word, postings, tf. split_and!; [by apply mem_true|done|done].
  - intros (word & postings & tf & Hq & Hget & Hin).
    exists (d, weight q idf word tf). split; [done|].
    apply list_elem_of_bind. exists word. split; [|apply elem_of_keys; by rewrite Hget].
    rewrite (word_contribs_get _ _ _ _ _ Hget).
    apply mem_true in Hq. rewrite Hq.
    apply list_elem_of_fmap. by exists (d, tf).
Qed.

(** C1: a query term that has postings in the index and no entry in the
    IDF table is not skipped: the scorer looks its idf up and raises
    [KeyError]. *)
Theorem accumulate_dot_scores_pruned_term
    (q : dict string nat) (index : dict string (list (nat * nat)))
    (idf : dict string R) (word : string) (p : nat * nat)
    (postings : list (nat * nat)) :
  word ∈ Dict.keys q →
  Dict.get index word = Some (p :: postings) →
  word ∉ Dict.keys idf →
  accumulate_dot_scores q index idf = Raise KeyError.
Proof.
  intros Hq Hget Hidf. apply (accumulate_dot_scores_fail _ _ _ word).
  split_and!; [done|done|by exists p, postings].
Qed.

Lemma accumulate_dot_scores_pruned_term_witness :
  "the" ∈ Dict.keys [("the", 1)] ∧
  Dict.get [("the", [(0, 1)])] "the" = Some [(0, 1)] ∧
  ("the" ∉ Dict.keys ([] : dict string R)) ∧
  accumulate_dot_scores [("the", 1)] [("the", [(0, 1)])] [] = Raise KeyError.
Proof.
  assert ("the" ∈ Dict.keys [("the", 1)]) as Hq by apply list_elem_of_here.
  assert ("the" ∉ Dict.keys ([] : dict string R)) as Hidf by apply not_elem_of_nil.
  split_and!; [exact Hq|reflexivity|exact Hidf|].
  exact (accumulate_dot_scores_pruned_term
           [("the", 1)] [("the", [(0, 1)])] [] "the" (0, 1) [] Hq eq_refl Hidf).
Defined.

(** ** Query term counts *)

Section counter_facts.
Implicit Types (tokens : list string) (t : string).

Lemma count_app t tokens1 tokens2 :
  count t (tokens1 ++ tokens2) = count t tokens1 + count t tokens2.
Proof. unfold count. by rewrite filter_app, length_app. Qed.

Lemma count_zero t tokens : t ∉ tokens → count t tokens = 0.
Proof.
  intros Ht. unfold count. induction tokens as [|x tokens IH]; [done|].
  rewrite filter_cons. apply not_elem_of_cons in Ht as [Hne Ht].
  rewrite decide_False by done. by apply IH.
Qed.

Lemma count_snoc t tokens x :
  count t (tokens ++ [x]) = count t tokens + (if decide (x = t) then 1 else 0).
Proof.
  rewrite count_app. f_equal. unfold count. rewrite filter_cons.
  by destruct (decide (x = t)).
Qed.

Lemma Counter_snoc tokens x :
  Counter (tokens ++ [x]) =
  Dict.set x (S (Dict.get_default (Counter tokens) x 0)) (Counter tokens).
Proof. unfold Counter. by rewrite foldl_app. Qed.

Lemma Counter_get tokens t :
  Dict.get (Counter tokens) t =
  if decide (t ∈ tokens) then Some (count t tokens) else None.
Proof.
  induction tokens as [|x tokens IH] using rev_ind; [done|].
  rewrite Counter_snoc, get_set, count_snoc. unfold Dict.get_default.
  destruct (decide (x = t)) as [->|Hne]; rewrite IH;
    destruct (decide (t ∈ tokens)) as [Hin|Hnin],
             (decide (t ∈ tokens ++ _)) as [Hin'|Hnin'];
    simpl; rewrite ?count_zero by done; try (f_equal; lia).
  - destruct Hnin'. apply elem_of_app. by left.
  - destruct Hnin'. apply elem_of_app. right. apply list_elem_of_here.
  - destruct Hnin'. apply elem_of_app. by left.
  - apply elem_of_app in Hin' as [?|?%list_elem_of_singleton]; done.
Qed.

Lemma word_counts_loop (tokenized l : list string) (acc : dict string nat) t :
  Dict.get (foldl (λ result tok, Dict.set tok (count tok tokenized) result) acc l) t =
  if decide (t ∈ l) then Some (count t tokenized) else Dict.get acc t.
Proof.
  revert acc. induction l as [|x l IH]; intros acc; [done|].
  cbn [foldl]. rewrite IH, get_set.
  destruct (decide (x = t)) as [->|Hne], (decide (t ∈ l)) as [Hl|Hl],
    (decide (t ∈ _ :: l)) as [Hxl|Hxl]; try done.
  - destruct Hxl. apply list_elem_of_here.
  - destruct Hxl. apply list_elem_of_here.
  - destruct Hxl. by apply list_elem_of_further.
  - apply elem_of_cons in Hxl as [?|?]; done.
Qed.

(** Whatever the order of the token set, [word_counts] and [Counter] hold
    the same counts. *)
Lemma word_counts_get `{SetOrder} (str_query : string) t :
  Dict.get (word_counts str_query) t = Dict.get (Counter (tokenize str_query)) t.
Proof.
  unfold word_counts. rewrite word_counts_loop, Counter_get.
  destruct (decide (t ∈ set_order _)) as [Hin|Hnin],
    (decide (t ∈ tokenize _)) as [Hin'|Hnin']; try done.
  - destruct Hnin'. by apply set_order_elem.
  - destruct Hnin. by apply set_order_elem.
Qed.

Lemma Counter_keys tokens t : t ∈ Dict.keys (Counter tokens) ↔ t ∈ tokens.
Proof.
  rewrite elem_of_keys, Counter_get.
  destruct (decide (t ∈ tokens)); split; try done; by intros [? ?].
Qed.
End counter_facts.

(** ** Ranker *)

Section sorted_desc_facts.
Implicit Types (x : R * nat) (l : list (R * nat)).

Lemma Rltb_true (a b : R) : Rltb a b = true ↔ (a < b)%R.
Proof. unfold Rltb. destruct (Rlt_dec a b); split; done. Qed.

Lemma Rltb_false (a b : R) : Rltb a b = false ↔ (b <= a)%R.
Proof. unfold Rltb. destruct (Rlt_dec a b); split; try done; lra. Qed.

Lemma insert_desc_perm x l : insert_desc x l ≡ₚ x :: l.
Proof.
  induction l as [|y l IH]; simpl; [done|].
  destruct (Rltb x.1 y.1); [|done]. rewrite IH. apply Permutation_swap.
Qed.

Lemma sorted_desc_perm l : sorted_desc l ≡ₚ l.
Proof.
  induction l as [|x l IH]; simpl; [done|]. by rewrite insert_desc_perm, IH.
Qed.

Lemma insert_desc_sorted x l :
  StronglySorted ge_score l → StronglySorted ge_score (insert_desc x l).
Proof.
  induction l as [|y l IH]; intros Hs; simpl.
  - repeat constructor.
  - apply StronglySorted_inv in Hs as [Hs Hall].
    destruct (Rltb x.1 y.1) eqn:Hlt.
    + apply Rltb_true in Hlt. constructor; [by apply IH|].
      rewrite insert_desc_perm. constructor; [|done]. unfold ge_score. lra.
    + apply Rltb_false in Hlt. constructor; [by constructor|].
      constructor; [done|]. eapply Forall_impl; [exact Hall|].
      unfold ge_score. intros z Hz. lra.
Qed.

Lemma sorted_desc_sorted l : StronglySorted ge_score (sorted_desc l).
Proof.
  induction l as [|x l IH]; simpl; [constructor|by apply insert_desc_sorted].
Qed.
End sorted_desc_facts.

Section ranker_facts.
Implicit Types (idf : dict string R) (q : dict string nat)
  (tokens : list string) (num_vals : dict nat R) (doc_norms : list R).

Lemma query_norm_sq_loop idf q tokens (acc : R) :
  (∀ t, t ∈ tokens → t ∈ Dict.keys q) →
  for_each
    (λ query_norm_m token,
       if Dict.mem idf token then
         let! idf_tok := Dict.getitem idf token in
         let! c := Dict.getitem q token in
         let prd_sqr := ((idf_tok * INR c) ^ 2)%R in
         Ok (query_norm_m + prd_sqr)%R
       else Ok query_norm_m)
    tokens acc
  = Ok (acc + sum_R (query_norm_terms idf q tokens))%R.
Proof.
  revert acc. induction tokens as [|t tokens IH]; intros acc Hq.
  - simpl. f_equal. unfold query_norm_terms. simpl. lra.
  - simpl. unfold query_norm_terms. rewrite filter_cons.
    destruct (Dict.mem idf t) eqn:Hmem.
    + apply mem_true in Hmem. rewrite decide_True by done.
      destruct (getitem_keys idf t Hmem) as (x & -> & Hx).
      destruct (getitem_keys q t) as (c & -> & Hc); [apply Hq, list_elem_of_here|].
      simpl. rewrite IH by (intros; by apply Hq, list_elem_of_further).
      csimpl. rewrite (get_default_Some _ _ _ _ Hx), (get_default_Some _ _ _ _ Hc).
      f_equal. rewrite Rplus_assoc. f_equal.
    + apply mem_false in Hmem. rewrite decide_False by done.
      simpl. apply IH. intros; by apply Hq, list_elem_of_further.
Qed.

Lemma query_norm_sq_Counter idf tokens :
  query_norm_sq idf (Counter tokens) tokens =
  Ok (0 + sum_R (query_norm_terms idf (Counter tokens) tokens))%R.
Proof. apply query_norm_sq_loop. intros t. by rewrite Counter_keys. Qed.

Lemma rank_loop_ok num_vals qn doc_norms docs results :
  (∀ d, d ∈ docs → d ∈ Dict.keys num_vals) →
  (∀ d, d ∈ docs → d < length doc_norms) →
  rank_loop num_vals qn doc_norms docs results =
  Ok (results ++ (cosine num_vals qn doc_norms <$> docs)).
Proof.
  unfold rank_loop.
  revert results. induction docs as [|d docs IH]; intros results Hkeys Hlen; simpl.
  - by rewrite app_nil_r.
  - destruct (getitem_keys num_vals d) as (x & -> & Hx); [apply Hkeys, list_elem_of_here|].
    destruct (lookup_lt_is_Some_2 doc_norms d) as [y Hy]; [apply Hlen, list_elem_of_here|].
    unfold array_getitem. rewrite Hy. simpl.
    rewrite IH by (intros; (apply Hkeys || apply Hlen); by apply list_elem_of_further).
    rewrite <-app_assoc. simpl. unfold cosine, Dict.get_default, entry.
    by rewrite Hx, Hy.
Qed.

Lemma rank_loop_inv num_vals qn doc_norms docs results results' :
  rank_loop num_vals qn doc_norms docs results = Ok results' →
  ∀ d, d ∈ docs → d < length doc_norms.
Proof.
  unfold rank_loop.
  revert results. induction docs as [|d docs IH]; intros results Hloop d' Hd'.
  - by apply elem_of_nil in Hd'.
  - simpl in Hloop. destruct (Dict.getitem num_vals d); [|done].
    unfold array_getitem in Hloop. simpl in Hloop.
    destruct (doc_norms !! d) as [y|] eqn:Hy; [|done]. simpl in Hloop.
    apply elem_of_cons in Hd' as [->|Hd']; [by eapply lookup_lt_Some|].
    by eapply IH.
Qed.
End ranker_facts.

Section search_facts.
Context (index : dict string (list (nat * nat))) (idf : dict string R).
Implicit Types (q : dict string nat) (query : string).

#[local] Instance pruned_hit_dec q word : Decision (pruned_hit q index idf word).
Proof.
  unfold pruned_hit.
  destruct (Dict.get index word) as [[|p postings]|].
  - right. intros (_ & _ & ? & ? & ?). done.
  - destruct (decide (word ∈ Dict.keys q)); [|right; tauto].
    destruct (decide (word ∈ Dict.keys idf)); [right; tauto|].
    left. split_and!; [done|done|by exists p, postings].
  - right. intros (_ & _ & ? & ? & ?). done.
Qed.

Lemma accumulate_dot_scores_inv q scores :
  accumulate_dot_scores q index idf = Ok scores →
  scores = tally (contribs q index idf) [] ∧
  ∀ word, ¬ pruned_hit q index idf word.
Proof.
  intros Hacc.
  destruct (decide (Exists (pruned_hit q index idf) (Dict.keys index))) as [Hex|Hno].
  - apply Exists_exists in Hex as (word & _ & Hbad).
    by rewrite (accumulate_dot_scores_fail _ _ _ _ Hbad) in Hacc.
  - assert (∀ word, ¬ pruned_hit q index idf word) as Hgood.
    { intros word Hbad. apply Hno, Exists_exists. exists word. split; [|done].
      destruct Hbad as (_ & _ & p & ps & Hget). apply elem_of_keys. by rewrite Hget. }
    rewrite (accumulate_dot_scores_ok _ _ _ Hgood) in Hacc. by simplify_eq.
Qed.

Lemma index_search_eq query doc_norms score_func tokenizer :
  index_search query index idf doc_norms score_func tokenizer =
  let tokens := tokenizer (lower query) in
  let q := Counter tokens in
  let qn := (0 + sum_R (query_norm_terms idf q tokens))%R in
  let! num_vals := score_func q index idf in
  let! results := rank_loop num_vals qn doc_norms (Dict.keys num_vals) [] in
  Ok (sorted_desc results).
Proof. unfold index_search. by rewrite query_norm_sq_Counter. Qed.

Lemma contribs_empty_query : contribs [] index idf = [].
Proof.
  unfold contribs. induction (Dict.keys index) as [|w ws IH]; [done|].
  csimpl. by rewrite IH.
Qed.

Lemma index_search_empty_query query doc_norms :
  tokenize query = [] →
  index_search query index idf doc_norms accumulate_dot_scores tokenize = Ok [].
Proof.
  intros Hq. rewrite index_search_eq, tokenize_lower, Hq.
  simpl. change (Counter []) with ([] : dict string nat).
  rewrite accumulate_dot_scores_ok.
  - by rewrite contribs_empty_query.
  - intros word (Hin & _). by apply elem_of_nil in Hin.
Qed.
End search_facts.

(** C6: a query without tokens makes [boolean_search] return the whole
    universe of document ids, in some order, and makes [index_search]
    return the empty ranking. *)
Theorem empty_query_results (query : string) (token_inv_idx : dict string (list nat))
    (n : nat) (index : dict string (list (nat * nat))) (idf : dict string R)
    (doc_norms : list R) :
  tokenize query = [] →
  boolean_search query token_inv_idx n ≡ₚ seq 0 n ∧
  index_search query index idf doc_norms accumulate_dot_scores tokenize = Ok [].
Proof.
  intros Hq. split; [|by apply index_search_empty_query].
  unfold boolean_search. rewrite Hq. simpl.
  apply elements_list_to_set, NoDup_seq.
Qed.

Lemma empty_query_results_witness :
  tokenize "12 + 7?" = [] ∧
  boolean_search "12 + 7?" [("cat", [0])] 3 ≡ₚ seq 0 3 ∧
  index_search "12 + 7?" [("cat", [(0, 1)])] [] [] accumulate_dot_scores tokenize
    = Ok [].
Proof.
  split; [reflexivity|].
  exact (empty_query_results "12 + 7?" [("cat", [0])] 3 [("cat", [(0, 1)])] [] []
           eq_refl).
Defined.

(** C10: when every query term found in the index has an idf value, the
    scorer returns a mapping whose keys are, each once, exactly the
    documents that have a posting under a query term; and a ranking
    returned by [index_search] only lists documents that have a posting
    under a token of the query. *)
Theorem scored_documents_share_a_term
    (index : dict string (list (nat * nat))) (idf : dict string R) :
  (∀ q : dict string nat,
     (∀ word, word ∈ Dict.keys q → word ∈ Dict.keys index → word ∈ Dict.keys idf) →
     ∃ scores,
       accumulate_dot_scores q index idf = Ok scores ∧
       NoDup (Dict.keys scores) ∧
       ∀ d, d ∈ Dict.keys scores ↔ shares_term (Dict.keys q) index d) ∧
  (∀ (query : string) (doc_norms : list R) (results : list (R * nat)),
     index_search query index idf doc_norms accumulate_dot_scores tokenize
       = Ok results →
     ∀ s d, (s, d) ∈ results → shares_term (tokenize query) index d).
Proof.
  split.
  - intros q Hidf. exists (tally (contribs q index idf) []). split_and!.
    + apply accumulate_dot_scores_ok. intros word (Hq & Hno & p & ps & Hget).
      apply Hno, Hidf; [done|]. apply elem_of_keys. by rewrite Hget.
    + apply tally_keys_NoDup. constructor.
    + intros d. rewrite tally_keys, contribs_docs.
      split; [by intros [?%elem_of_nil|?]|by right].
  - intros query doc_norms results. rewrite index_search_eq, tokenize_lower. simpl.
    destruct (accumulate_dot_scores _ index idf) as [num_vals|] eqn:Hacc; [|done].
    apply accumulate_dot_scores_inv in Hacc as [-> _]. simpl.
    set (num_vals := tally _ _).
    destruct (rank_loop num_vals _ doc_norms _ []) as [ranked|] eqn:Hloop; [|done].
    simpl. intros [= <-] s d Hin.
    rewrite sorted_desc_perm in Hin.
    rewrite rank_loop_ok in Hloop; [|done|by eapply rank_loop_inv].
    simplify_eq/=. apply list_elem_of_fmap in Hin as (d' & [= -> ->] & Hd').
    apply tally_keys in Hd' as [?%elem_of_nil|Hd']; [done|].
    apply contribs_docs in Hd' as (word & ps & tf & Hw & Hget & Hin).
    exists word, ps, tf. by rewrite Counter_keys in Hw.
Qed.

Lemma scored_documents_share_a_term_witness :
  let index := [("cat", [(0, 1)]); ("dog", [(1, 2)])] in
  let idf := [("cat", 1%R); ("dog", 1%R)] in
  (∃ scores,
     accumulate_dot_scores [("cat", 1)] index idf = Ok scores ∧
     NoDup (Dict.keys scores) ∧
     ∀ d, d ∈ Dict.keys scores ↔ shares_term ["cat"] index d) ∧
  (∀ s d,
     (s, d) ∈ [(((0 + INR 1 * 1 ^ 2) / (sqrt (0 + (1 * INR 1) ^ 2) * 1))%R, 0)] →
     shares_term (tokenize "cat") index d).
Proof.
  intros index idf.
  pose proof (scored_documents_share_a_term index idf) as [Hscorer Hranker]. split.
  - apply (Hscorer [("cat", 1)]). intros word Hword _.
    apply list_elem_of_singleton in Hword. rewrite Hword. apply list_elem_of_here.
  - apply (Hranker "cat" [1%R; 1%R]). reflexivity.
Defined.

(** ** Monotonicity of the scorer *)

Section monotone.
Context (q : dict string nat) (idf : dict string R).
Implicit Types (index : dict string (list (nat * nat))) (word : string)
  (postings : list (nat * nat)) (d tf : nat).

Lemma weight_mono word tf tf' :
  tf ≤ tf' → (weight q idf word tf <= weight q idf word tf')%R.
Proof.
  intros Hle. unfold weight. apply Rmult_le_compat_r; [apply pow2_ge_0|].
  apply le_INR. by apply Nat.mul_le_mono_r.
Qed.

Lemma doc_total_bump word postings i d tf :
  postings !! i = Some (d, tf) →
  (doc_total d ((λ p, (p.1, weight q idf word p.2)) <$> postings) <=
   doc_total d ((λ p, (p.1, weight q idf word p.2)) <$> <[i:=(d, S tf)]> postings))%R.
Proof.
  revert i. induction postings as [|[d' tf'] postings IH]; intros i Hi; [done|].
  destruct i as [|i]; csimpl in *.
  - simplify_eq. rewrite !doc_total_cons, !decide_True by done.
    assert (tf ≤ S tf) as Hle by lia.
    pose proof (weight_mono word tf (S tf) Hle). simpl. lra.
  - rewrite !doc_total_cons. specialize (IH i Hi).
    destruct (decide (d' = d)); lra.
Qed.

Lemma doc_total_bind_le {A} (f g : A → list (nat * R)) (l : list A) d :
  (∀ x, x ∈ l → (doc_total d (f x) <= doc_total d (g x))%R) →
  (doc_total d (l ≫= f) <= doc_total d (l ≫= g))%R.
Proof.
  induction l as [|x l IH]; intros Hle; csimpl; [lra|].
  rewrite !doc_total_app.
  pose proof (Hle x (list_elem_of_here _ _)).
  assert (doc_total d (l ≫= f) <= doc_total d (l ≫= g))%R.
  { apply IH. intros y Hy. by apply Hle, list_elem_of_further. }
  lra.
Qed.

Lemma contribs_bump index word postings i d tf :
  Dict.get index word = Some postings →
  postings !! i = Some (d, tf) →
  (doc_total d (contribs q index idf) <=
   doc_total d (contribs q (Dict.set word (<[i:=(d, S tf)]> postings) index) idf))%R.
Proof.
  intros Hget Hi. unfold contribs. rewrite keys_set_Some by (by rewrite Hget).
  apply doc_total_bind_le. intros w Hw.
  apply elem_of_keys in Hw as [ps Hps].
  destruct (decide (word = w)) as [<-|Hne].
  - rewrite (word_contribs_get _ _ _ _ _ Hget).
    rewrite (word_contribs_get _ _ _ _ (<[i:=(d, S tf)]> postings))
      by apply get_set_eq.
    destruct (Dict.mem q word); [by apply doc_total_bump|lra].
  - rewrite (word_contribs_get _ _ _ _ _ Hps).
    rewrite (word_contribs_get _ _ _ _ ps) by (by rewrite get_set_ne).
    lra.
Qed.
End monotone.

(** C8: raising by one the stored frequency of a query term in a document
    that has a posting for it leaves the scorer defined and does not lower
    the score of that document. *)
Theorem accumulate_dot_scores_monotone
    (q : dict string nat) (index : dict string (list (nat * nat)))
    (idf : dict string R) (word : string) (postings : list (nat * nat))
    (i d tf : nat) (scores : dict nat R) :
  word ∈ Dict.keys q →
  Dict.get index word = Some postings →
  postings !! i = Some (d, tf) →
  accumulate_dot_scores q index idf = Ok scores →
  ∃ scores' x x',
    accumulate_dot_scores q (Dict.set word (<[i:=(d, S tf)]> postings) index) idf
      = Ok scores' ∧
    Dict.get scores d = Some x ∧ Dict.get scores' d = Some x' ∧ (x <= x')%R.
Proof.
  intros Hq Hget Hi Hacc.
  apply accumulate_dot_scores_inv in Hacc as [-> Hgood].
  set (index' := Dict.set word (<[i:=(d, S tf)]> postings) index).
  assert (Dict.get index' word = Some (<[i:=(d, S tf)]> postings)) as Hget'
    by apply get_set_eq.
  assert (∀ index0 ps, Dict.get index0 word = Some ps → (d, tf) ∈ ps ∨ (d, S tf) ∈ ps →
            is_Some (Dict.get (tally (contribs q index0 idf) []) d)) as Hsome.
  { intros index0 ps Hps Hin. apply elem_of_keys, tally_keys. right.
    apply contribs_docs. destruct Hin as [Hin|Hin];
      [exists word, ps, tf|exists word, ps, (S tf)]; done. }
  destruct (Hsome index postings Hget) as [x Hx].
  { left. by eapply list_elem_of_lookup_2. }
  destruct (Hsome index' _ Hget') as [x' Hx'].
  { right. eapply list_elem_of_lookup_2. apply list_lookup_insert_eq.
    by eapply lookup_lt_Some. }
  exists (tally (contribs q index' idf) []), x, x'. split_and!; [|done|done|].
  - apply accumulate_dot_scores_ok. intros w (Hw & Hno & p & ps & Hps).
    destruct (decide (word = w)) as [<-|Hne].
    + destruct postings as [|p0 postings0]; [done|].
      apply (Hgood word). split_and!; [done|done|by exists p0, postings0].
    + apply (Hgood w). split_and!; [done|done|].
      exists p, ps. unfold index' in Hps. by rewrite get_set_ne in Hps.
  - apply tally_get in Hx as ->. apply tally_get in Hx' as ->.
    by apply contribs_bump.
Qed.

Lemma accumulate_dot_scores_monotone_witness :
  "cat" ∈ Dict.keys [("cat", 2)] ∧
  Dict.get [("cat", [(0, 1); (1, 3)])] "cat" = Some [(0, 1); (1, 3)] ∧
  [(0, 1); (1, 3)] !! 1 = Some (1, 3) ∧
  accumulate_dot_scores [("cat", 2)] [("cat", [(0, 1); (1, 3)])] [("cat", 2%R)]
    = Ok [(0, (0 + INR 2 * 2 ^ 2)%R); (1, (0 + INR 6 * 2 ^ 2)%R)] ∧
  ∃ scores' x x',
    accumulate_dot_scores [("cat", 2)]
      (Dict.set "cat" (<[1:=(1, 4)]> [(0, 1); (1, 3)]) [("cat", [(0, 1); (1, 3)])])
      [("cat", 2%R)] = Ok scores' ∧
    Dict.get [(0, (0 + INR 2 * 2 ^ 2)%R); (1, (0 + INR 6 * 2 ^ 2)%R)] 1 = Some x ∧
    Dict.get scores' 1 = Some x' ∧ (x <= x')%R.
Proof.
  assert ("cat" ∈ Dict.keys [("cat", 2)]) as Hq by apply list_elem_of_here.
  split_and!; [exact Hq|reflexivity|reflexivity|reflexivity|].
  exact (accumulate_dot_scores_monotone
           [("cat", 2)] [("cat", [(0, 1); (1, 3)])] [("cat", 2%R)] "cat"
           [(0, 1); (1, 3)] 1 1 3 _ Hq eq_refl eq_refl eq_refl).
Defined.

(** ** The ranking of [index_search] *)

Lemma index_search_ranked (query : string)
    (index : dict string (list (nat * nat))) (idf : dict string R)
    (doc_norms : list R) (num_vals : dict nat R) :
  let tokens := tokenize query in
  let q := Counter tokens in
  accumulate_dot_scores q index idf = Ok num_vals →
  (∀ d, d ∈ Dict.keys num_vals → d < length doc_norms) →
  index_search query index idf doc_norms accumulate_dot_scores tokenize =
  Ok (sorted_desc
        (cosine num_vals (sum_R (query_norm_terms idf q tokens)) doc_norms
           <$> Dict.keys num_vals)).
Proof.
  intros tokens q Hacc Hlen. rewrite index_search_eq, tokenize_lower. simpl.
  fold tokens q. rewrite Hacc. simpl. rewrite rank_loop_ok by done. simpl.
  by rewrite Rplus_0_l.
Qed.

(** C2, as stated, fails: with idf("a") = 0 the document 0, which holds
    only the query term "a", has numerator 0 and is ranked all the same. *)
Lemma index_search_ranks_zero_numerator :
  ¬ ranks_nonzero_numerators "a b"
      [("a", [(0, 1)]); ("b", [(1, 1)])] [("a", 0%R); ("b", 1%R)] [1%R; 1%R].
Proof.
  unfold ranks_nonzero_numerators.
  set (index := [("a", [(0, 1)]); ("b", [(1, 1)])]).
  set (idf := [("a", 0%R); ("b", 1%R)]).
  intros Hclaim. destruct Hclaim as (num_vals & results & Hacc & Hsearch & Hdocs).
  - intros word _ Hword. apply elem_of_keys in Hword as [ps Hps].
    apply elem_of_keys. unfold index, idf in *. simpl in *.
    repeat case_decide; simplify_eq; eauto.
  - change (sum_R _) with (((0 * INR 1) ^ 2 + ((1 * INR 1) ^ 2 + 0))%R).
    replace ((0 * INR 1) ^ 2 + ((1 * INR 1) ^ 2 + 0))%R with 1%R by (unfold INR; lra).
    rewrite sqrt_1. lra.
  - intros d (word & ps & tf & Hword & Hget & Hin).
    unfold index in Hget. simpl in Hget.
    repeat case_decide; simplify_eq;
      apply list_elem_of_singleton in Hin; simplify_eq;
      (split; [simpl; lia|unfold entry; simpl; lra]).
  - rewrite (index_search_ranked _ _ _ _ _ Hacc) in Hsearch.
    + simplify_eq. destruct (proj1 (Hdocs 0)) as (x & Hx & Hnz).
      * rewrite sorted_desc_perm, <-list_fmap_compose.
        apply list_elem_of_fmap. exists 0. split; [done|].
        apply elem_of_keys. vm_compute in Hacc. simplify_eq. by eexists.
      * apply Hnz. cbv in Hacc. simplify_eq. vm_compute in Hx. simplify_eq.
        simpl. lra.
    + intros d Hd. vm_compute in Hacc. simplify_eq. simpl in Hd.
      repeat (apply elem_of_cons in Hd as [->|Hd]; [simpl; lia|]).
      by apply elem_of_nil in Hd.
Qed.

Lemma accumulate_dot_scores_total (q : dict string nat)
    (index : dict string (list (nat * nat))) (idf : dict string R) :
  (∀ word, word ∈ Dict.keys q → word ∈ Dict.keys index → word ∈ Dict.keys idf) →
  accumulate_dot_scores q index idf = Ok (tally (contribs q index idf) []).
Proof.
  intros Hidf. apply accumulate_dot_scores_ok.
  intros word (Hq & Hno & p & ps & Hget).
  apply Hno, Hidf; [done|]. apply elem_of_keys. by rewrite Hget.
Qed.

Lemma scored_keys (q : dict string nat)
    (index : dict string (list (nat * nat))) (idf : dict string R) (d : nat) :
  d ∈ Dict.keys (tally (contribs q index idf) []) ↔ shares_term (Dict.keys q) index d.
Proof.
  rewrite tally_keys, contribs_docs. split; [by intros [?%elem_of_nil|?]|by right].
Qed.

Lemma shares_term_Counter (tokens : list string)
    (index : dict string (list (nat * nat))) (d : nat) :
  shares_term (Dict.keys (Counter tokens)) index d ↔ shares_term tokens index d.
Proof.
  unfold shares_term. split; intros (word & ps & tf & Hw & Hrest);
    exists word, ps, tf; (split; [|done]); by apply Counter_keys.
Qed.

Lemma cosine_docs (num_vals : dict nat R) (query_norm_m : R) (doc_norms : list R)
    (docs : list nat) :
  (cosine num_vals query_norm_m doc_norms <$> docs).*2 = docs.
Proof. induction docs as [|d docs IH]; csimpl; [done|]. by rewrite IH. Qed.

(** C2, amended: under the stated conditions [index_search] returns, each
    once, exactly the documents that have a posting under a query token
    (the keys of the scorer's mapping, a zero numerator included), each
    scored as its numerator over [query_norm * doc_norms[doc]], in
    descending order of score. *)
Theorem index_search_ranking (query : string)
    (index : dict string (list (nat * nat))) (idf : dict string R)
    (doc_norms : list R) :
  let tokens := tokenize query in
  let q := Counter tokens in
  let query_norm := sqrt (sum_R (query_norm_terms idf q tokens)) in
  (∀ word, word ∈ tokens → word ∈ Dict.keys index → word ∈ Dict.keys idf) →
  query_norm ≠ 0%R →
  (∀ d, shares_term tokens index d → d < length doc_norms ∧ entry doc_norms d ≠ 0%R) →
  ∃ num_vals results,
    accumulate_dot_scores q index idf = Ok num_vals ∧
    index_search query index idf doc_norms accumulate_dot_scores tokenize
      = Ok results ∧
    (∀ d, d ∈ Dict.keys num_vals ↔ shares_term tokens index d) ∧
    results ≡ₚ
      (λ d, (Dict.get_default num_vals d 0 / (query_norm * entry doc_norms d), d)%R)
        <$> Dict.keys num_vals ∧
    NoDup results.*2 ∧
    StronglySorted ge_score results.
Proof.
  intros tokens q query_norm Hidf _ Hnorms.
  assert (accumulate_dot_scores q index idf = Ok (tally (contribs q index idf) []))
    as Hacc.
  { apply accumulate_dot_scores_total. intros word Hw. apply Hidf.
    by apply Counter_keys. }
  set (num_vals := tally (contribs q index idf) []) in *.
  assert (∀ d, d ∈ Dict.keys num_vals ↔ shares_term tokens index d) as Hkeys.
  { intros d. unfold num_vals, q. by rewrite scored_keys, shares_term_Counter. }
  eexists num_vals, _. split_and!; [done| |done|..].
  - apply index_search_ranked; [done|]. intros d Hd. by apply Hnorms, Hkeys.
  - apply sorted_desc_perm.
  - rewrite sorted_desc_perm, cosine_docs. apply tally_keys_NoDup. constructor.
  - apply sorted_desc_sorted.
Qed.

Lemma index_search_ranking_witness :
  let index := [("a", [(0, 1)]); ("b", [(1, 1)])] in
  let idf := [("a", 0%R); ("b", 1%R)] in
  let doc_norms := [1%R; 1%R] in
  let tokens := tokenize "a b" in
  let q := Counter tokens in
  let query_norm := sqrt (sum_R (query_norm_terms idf q tokens)) in
  (∀ word, word ∈ tokens → word ∈ Dict.keys index → word ∈ Dict.keys idf) ∧
  query_norm ≠ 0%R ∧
  (∀ d, shares_term tokens index d → d < length doc_norms ∧ entry doc_norms d ≠ 0%R) ∧
  ∃ num_vals results,
    accumulate_dot_scores q index idf = Ok num_vals ∧
    index_search "a b" index idf doc_norms accumulate_dot_scores tokenize
      = Ok results ∧
    (∀ d, d ∈ Dict.keys num_vals ↔ shares_term tokens index d) ∧
    results ≡ₚ
      (λ d, (Dict.get_default num_vals d 0 / (query_norm * entry doc_norms d), d)%R)
        <$> Dict.keys num_vals ∧
    NoDup results.*2 ∧
    StronglySorted ge_score results.
Proof.
  intros index idf doc_norms tokens q query_norm.
  assert (∀ word, word ∈ tokens → word ∈ Dict.keys index → word ∈ Dict.keys idf)
    as Hidf.
  { intros word _ Hword. exact Hword. }
  assert (query_norm ≠ 0%R) as Hqn.
  { unfold query_norm.
    change (sum_R _) with (((0 * INR 1) ^ 2 + ((1 * INR 1) ^ 2 + 0))%R).
    replace ((0 * INR 1) ^ 2 + ((1 * INR 1) ^ 2 + 0))%R with 1%R by (unfold INR; lra).
    rewrite sqrt_1. lra. }
  assert (∀ d, shares_term tokens index d →
               d < length doc_norms ∧ entry doc_norms d ≠ 0%R) as Hnorms.
  { intros d (word & ps & tf & Hword & Hget & Hin).
    unfold index in Hget. simpl in Hget.
    repeat case_decide; simplify_eq;
      apply list_elem_of_singleton in Hin; simplify_eq;
      (split; [simpl; lia|unfold entry; simpl; lra]). }
  split_and!; [exact Hidf|exact Hqn|exact Hnorms|].
  exact (index_search_ranking "a b" index idf doc_norms Hidf Hqn Hnorms).
Defined.

(** ** Latent-semantic engine: nearest documents *)

Section insertion_argsort_facts.
Implicit Types (v : list R) (l : list nat).

Lemma insert_asc_perm v i l : insert_asc v i l ≡ₚ i :: l.
Proof.
  induction l as [|j l IH]; simpl; [done|].
  destruct (Rltb (entry v j) (entry v i)); [|done].
  rewrite IH. apply Permutation_swap.
Qed.

Lemma insertion_argsort_perm v : insertion_argsort v ≡ₚ seq 0 (length v).
Proof.
  unfold insertion_argsort. induction (seq 0 (length v)) as [|i l IH]; simpl; [done|].
  by rewrite insert_asc_perm, IH.
Qed.

Lemma insert_asc_sorted v i l :
  StronglySorted (λ a b, (entry v a <= entry v b)%R) l →
  StronglySorted (λ a b, (entry v a <= entry v b)%R) (insert_asc v i l).
Proof.
  induction l as [|j l IH]; intros Hs; simpl.
  - repeat constructor.
  - apply StronglySorted_inv in Hs as [Hs Hall].
    destruct (Rltb (entry v j) (entry v i)) eqn:Hlt.
    + apply Rltb_true in Hlt. constructor; [by apply IH|].
      rewrite insert_asc_perm. constructor; [lra|done].
    + apply Rltb_false in Hlt. constructor; [by constructor|].
      constructor; [done|]. eapply Forall_impl; [exact Hall|].
      simpl. intros z Hz. lra.
Qed.

Lemma insertion_argsort_sorted v :
  StronglySorted (λ a b, (entry v a <= entry v b)%R) (insertion_argsort v).
Proof.
  unfold insertion_argsort. induction (seq 0 (length v)) as [|i l IH]; simpl.
  - constructor.
  - by apply insert_asc_sorted.
Qed.
End insertion_argsort_facts.

#[export] Instance insertion_order : ArgSort :=
  {| argsort := insertion_argsort;
     argsort_perm := insertion_argsort_perm;
     argsort_sorted := insertion_argsort_sorted |}.

Section nearest_facts.
Context `{ArgSort}.
Implicit Types (sims : list R) (docs : list (list R)) (k : nat).










End nearest_facts.



(** ** Term statistics *)

Section idf_facts.
Context {P : Type} (inv_idx : dict string (list P)) (n_docs min_df : nat)
  (max_df_ratio : R).
Implicit Types (idf : dict string R) (term t : string) (terms : list string).

Lemma idf_loop_cons term terms idf postings :
  n_docs ≠ 0 →
  Dict.get inv_idx term = Some postings →
  idf_loop inv_idx n_docs min_df max_df_ratio (term :: terms) idf =
  idf_loop inv_idx n_docs min_df max_df_ratio terms
    match idf_value inv_idx n_docs min_df max_df_ratio term with
    | Some v => Dict.set term v idf
    | None => idf
    end.
Proof.
  intros Hn Hget. unfold idf_loop, idf_value. cbn [for_each].
  unfold Dict.getitem. rewrite Hget. cbn [bind].
  destruct (min_df <=? length postings); cbn [andb]; [|done].
  rewrite (proj2 (Nat.eqb_neq _ _) Hn).
  by destruct (Rltb _ max_df_ratio).
Qed.

Lemma idf_loop_get terms idf :
  n_docs ≠ 0 →
  (∀ t, t ∈ terms → t ∈ Dict.keys inv_idx) →
  NoDup (Dict.keys idf) →
  ∃ idf',
    idf_loop inv_idx n_docs min_df max_df_ratio terms idf = Ok idf' ∧
    NoDup (Dict.keys idf') ∧
    ∀ t, Dict.get idf' t =
         match (if decide (t ∈ terms)
                then idf_value inv_idx n_docs min_df max_df_ratio t else None) with
         | Some v => Some v
         | None => Dict.get idf t
         end.
Proof.
  intros Hn. revert idf. induction terms as [|term terms IH]; intros idf Hkeys Hnd.
  - exists idf. by split_and!.
  - destruct (proj1 (elem_of_keys inv_idx term)) as [postings Hget];
      [apply Hkeys, list_elem_of_here|].
    assert (∀ t, t ∈ terms → t ∈ Dict.keys inv_idx) as Hkeys'.
    { intros t Ht. by apply Hkeys, list_elem_of_further. }
    rewrite (idf_loop_cons _ _ _ _ Hn Hget).
    destruct (idf_value inv_idx n_docs min_df max_df_ratio term) as [v|] eqn:Hval.
    + destruct (IH (Dict.set term v idf)) as (idf' & Hloop & Hnd' & Hget');
        [done|by apply NoDup_keys_set|].
      exists idf'. split_and!; [done|done|]. intros t. rewrite Hget', get_set.
      destruct (decide (term = t)) as [<-|Hne].
      * rewrite (decide_True (P := term ∈ term :: terms)) by apply list_elem_of_here.
        rewrite Hval. by destruct (decide (term ∈ terms)); rewrite ?Hval.
      * destruct (decide (t ∈ terms)) as [Hin|Hnin].
        -- by rewrite decide_True by (by apply list_elem_of_further).
        -- rewrite decide_False; [done|]. intros [?|?]%elem_of_cons; done.
    + destruct (IH idf) as (idf' & Hloop & Hnd' & Hget'); [done|done|].
      exists idf'. split_and!; [done|done|]. intros t. rewrite Hget'.
      destruct (decide (term = t)) as [<-|Hne].
      * rewrite (decide_True (P := term ∈ term :: terms)) by apply list_elem_of_here.
        rewrite Hval. by destruct (decide (term ∈ terms)); rewrite ?Hval.
      * destruct (decide (t ∈ terms)) as [Hin|Hnin].
        -- by rewrite decide_True by (by apply list_elem_of_further).
        -- rewrite decide_False; [done|]. intros [?|?]%elem_of_cons; done.
Qed.

Lemma compute_idf_get :
  n_docs ≠ 0 →
  ∃ idf,
    compute_idf inv_idx n_docs min_df max_df_ratio = Ok idf ∧
    NoDup (Dict.keys idf) ∧
    ∀ t, Dict.get idf t = idf_value inv_idx n_docs min_df max_df_ratio t.
Proof.
  intros Hn. destruct (idf_loop_get (Dict.keys inv_idx) [] Hn) as (idf & Hloop & Hnd & Hget);
    [done|constructor|].
  exists idf. split_and!; [done|done|]. intros t. rewrite Hget.
  destruct (decide (t ∈ Dict.keys inv_idx)) as [|Hnin]; simpl.
  - by destruct (idf_value _ _ _ _ t).
  - apply not_elem_of_keys in Hnin. unfold idf_value. by rewrite Hnin.
Qed.
End idf_facts.

Section norm_facts.
Context (index : dict string (list (nat * nat))).
Implicit Types (idf : dict string R) (doc_dict : dict nat (list (nat * R)))
  (d : nat).

Lemma collect_postings doc_dict (v : R) (postings : list (nat * nat)) d :
  Dict.get_default
    (foldl
       (λ doc_dict '(doc_id, tf),
          let doc_words := Dict.get_default doc_dict doc_id [] in
          Dict.set doc_id (doc_words ++ [(tf, v)]) doc_dict)
       doc_dict postings) d []
  = Dict.get_default doc_dict d [] ++
    ((λ p, (p.2, v)) <$> filter (λ p, p.1 = d) postings).
Proof.
  revert doc_dict. induction postings as [|[d' tf] postings IH]; intros doc_dict.
  - simpl. by rewrite app_nil_r.
  - cbn [foldl]. rewrite IH, filter_cons. unfold Dict.get_default at 1.
    rewrite get_set. cbn [fst]. destruct (decide (d' = d)) as [->|Hne].
    + csimpl. by rewrite <-app_assoc.
    + done.
Qed.

Lemma collect_words doc_dict idf d :
  Dict.get_default
    (foldl
       (λ doc_dict '(word, idf_val),
          foldl
            (λ doc_dict '(doc_id, tf),
               let doc_words := Dict.get_default doc_dict doc_id [] in
               Dict.set doc_id (doc_words ++ [(tf, idf_val)]) doc_dict)
            doc_dict (Dict.get_default index word []))
       doc_dict idf) d []
  = Dict.get_default doc_dict d [] ++ doc_words index idf d.
Proof.
  unfold doc_words.
  revert doc_dict. induction idf as [|[word v] idf IH]; intros doc_dict.
  - simpl. by rewrite app_nil_r.
  - cbn [foldl]. rewrite IH, collect_postings. csimpl. by rewrite <-app_assoc.
Qed.

Lemma collect_doc_words_get idf d :
  Dict.get_default (collect_doc_words index idf) d [] = doc_words index idf d.
Proof. unfold collect_doc_words. by rewrite collect_words. Qed.

Lemma norm_sum_foldl (l : list (nat * R)) (acc : R) :
  foldl (λ norm_sum '(tf, idf_val), (norm_sum + (INR tf * idf_val) ^ 2)%R) acc l
  = (acc + sum_R (sq_tfidf <$> l))%R.
Proof.
  revert acc. induction l as [|[tf v] l IH]; intros acc; csimpl.
  - lra.
  - rewrite IH. unfold sq_tfidf. simpl. lra.
Qed.

Lemma norm_of_eq (l : list (nat * R)) : norm_of l = sqrt (sum_R (sq_tfidf <$> l)).
Proof. unfold norm_of. by rewrite norm_sum_foldl, Rplus_0_l. Qed.

Lemma compute_doc_norms_entry idf (n_docs : nat) d :
  d < n_docs →
  entry (compute_doc_norms index idf n_docs) d =
  sqrt (sum_R (sq_tfidf <$> doc_words index idf d)).
Proof.
  intros Hd. unfold entry, compute_doc_norms.
  rewrite list_lookup_fmap, lookup_seq_lt by done. simpl.
  by rewrite collect_doc_words_get, norm_of_eq.
Qed.

Lemma compute_doc_norms_length idf (n_docs : nat) :
  length (compute_doc_norms index idf n_docs) = n_docs.
Proof. unfold compute_doc_norms. by rewrite length_fmap, length_seq. Qed.

Lemma sum_sq_nonneg (l : list (nat * R)) : (0 <= sum_R (sq_tfidf <$> l))%R.
Proof.
  induction l as [|e l IH]; csimpl; [lra|].
  pose proof (pow2_ge_0 (INR e.1 * e.2)). unfold sq_tfidf at 1. lra.
Qed.

Lemma sum_sq_elem (l : list (nat * R)) (e : nat * R) :
  e ∈ l → (sq_tfidf e <= sum_R (sq_tfidf <$> l))%R.
Proof.
  induction l as [|e' l IH]; intros Hin; [by apply elem_of_nil in Hin|].
  csimpl. apply elem_of_cons in Hin as [->|Hin].
  - pose proof (sum_sq_nonneg l). lra.
  - pose proof (IH Hin). pose proof (pow2_ge_0 (INR e'.1 * e'.2)).
    unfold sq_tfidf at 2. lra.
Qed.
End norm_facts.

(** ** The three-document example *)

Lemma get_elem_of {K V} `{EqDecision K} (d : dict K V) (k : K) (v : V) :
  Dict.get d k = Some v → (k, v) ∈ d.
Proof.
  induction d as [|[k' v'] d IH]; simpl; [done|].
  destruct (decide (k = k')) as [->|Hne].
  - intros [= ->]. apply list_elem_of_here.
  - intros Hget. by apply list_elem_of_further, IH.
Qed.

Lemma bind_nil {A B} (f : A → list B) (l : list A) :
  (∀ y, y ∈ l → f y = []) → l ≫= f = [].
Proof.
  induction l as [|z l IH]; intros Hnil; [done|]. csimpl.
  rewrite (Hnil z) by apply list_elem_of_here.
  apply IH. intros y Hy. by apply Hnil, list_elem_of_further.
Qed.

Lemma bind_single {A B} (f : A → list B) (l : list A) (x : A) :
  NoDup l → x ∈ l → (∀ y, y ∈ l → y ≠ x → f y = []) → l ≫= f = f x.
Proof.
  intros Hnd. induction Hnd as [|y l Hy Hnd IH]; intros Hin Hnil;
    [by apply elem_of_nil in Hin|].
  csimpl. apply elem_of_cons in Hin as [->|Hin].
  - rewrite (bind_nil f l), app_nil_r; [done|].
    intros z Hz. apply Hnil; [by apply list_elem_of_further|]. by intros ->.
  - rewrite (Hnil y); [|apply list_elem_of_here|by intros ->].
    apply IH; [done|]. intros z Hz. by apply Hnil, list_elem_of_further.
Qed.

Lemma cat_idf_pos : (0 < cat_idf)%R.
Proof.
  unfold cat_idf, log2. rewrite !INR_IZR_INZ. simpl.
  assert (0 < ln 2)%R as Hln2.
  { rewrite <-ln_1. apply ln_increasing; lra. }
  assert (0 < ln (3 / 2))%R as Hln.
  { rewrite <-ln_1. apply ln_increasing; lra. }
  by apply Rdiv_lt_0_compat.
Qed.

Lemma cat_postings_length (t : string) : length (cat_postings t) ≤ 2.
Proof.
  unfold cat_postings.
  destruct (decide (t ∈ ["the"; "cat"; "sat"])) as [H0|_];
    destruct (decide (t ∈ ["the"; "dog"; "sat"; "on"; "the"; "mat"])) as [H1|_];
    destruct (decide (t ∈ ["cats"; "and"; "dogs"])) as [H2|_];
    simpl; try lia.
  exfalso.
  repeat (apply elem_of_cons in H2 as [->|H2]);
    try (by apply elem_of_nil in H2);
    repeat (apply elem_of_cons in H0 as [?|H0]; [done|]);
    by apply elem_of_nil in H0.
Qed.

Lemma ratio_below_one (n : nat) : n ≤ 2 → Rltb (INR n / INR 3) 1 = true.
Proof.
  intros Hn. apply Rltb_true. apply le_INR in Hn.
  rewrite !INR_IZR_INZ in *.
  change (Z.of_nat 2) with 2%Z in Hn. change (Z.of_nat 3) with 3%Z. lra.
Qed.

Section cat_example.
Context `{SetOrder}.
Implicit Types (idx : dict string (list (nat * nat))) (idf : dict string R).

Lemma cat_index_get idx (t : string) :
  build_token_inverted_index_with_freq cat_docs (build_doc_inverted_index cat_docs)
    = Ok idx →
  Dict.get idx t = extend None (cat_postings t).
Proof.
  intros Hb. rewrite (with_freq_get _ _ _ _ Hb). f_equal.
  unfold postings_of, cat_postings, cat_docs. cbn [omap list_omap].
  change (tokenize "the cat sat") with ["the"; "cat"; "sat"].
  change (tokenize "the dog sat on the mat")
    with ["the"; "dog"; "sat"; "on"; "the"; "mat"].
  change (tokenize "cats and dogs") with ["cats"; "and"; "dogs"].
  destruct (decide (t ∈ ["the"; "cat"; "sat"]));
    destruct (decide (t ∈ ["the"; "dog"; "sat"; "on"; "the"; "mat"]));
    destruct (decide (t ∈ ["cats"; "and"; "dogs"])); reflexivity.
Qed.

Lemma cat_idf_includes idx idf :
  build_token_inverted_index_with_freq cat_docs (build_doc_inverted_index cat_docs)
    = Ok idx →
  (∀ t, Dict.get idf t = idf_value idx 3 0 1 t) →
  ∀ t, t ∈ Dict.keys idx → t ∈ Dict.keys idf.
Proof.
  intros Hb Hidf t [ps Hps]%elem_of_keys. apply elem_of_keys.
  rewrite Hidf. unfold idf_value. rewrite Hps. cbn [Nat.leb andb].
  rewrite ratio_below_one; [done|].
  rewrite (cat_index_get _ _ Hb) in Hps. pose proof (cat_postings_length t) as Hlen.
  destruct (cat_postings t); simplify_eq/=; done.
Qed.

Lemma cat_idf_cat idx idf :
  build_token_inverted_index_with_freq cat_docs (build_doc_inverted_index cat_docs)
    = Ok idx →
  (∀ t, Dict.get idf t = idf_value idx 3 0 1 t) →
  Dict.get idf "cat" = Some cat_idf.
Proof.
  intros Hb Hidf. rewrite Hidf. unfold idf_value.
  rewrite (cat_index_get _ _ Hb). change (extend None (cat_postings "cat"))
    with (Some [(0, 1)]). cbn [length Nat.leb andb].
  by rewrite ratio_below_one by lia.
Qed.

(** The whole pipeline on the query "cat": one entry, for document 0, with
    a positive score. *)
Lemma cat_search :
  ∃ idx idf s,
    build_token_inverted_index_with_freq cat_docs (build_doc_inverted_index cat_docs)
      = Ok idx ∧
    compute_idf idx (length cat_docs) 0 1 = Ok idf ∧
    (∀ t, t ∈ Dict.keys idx → t ∈ Dict.keys idf) ∧
    index_search "cat" idx idf (compute_doc_norms idx idf (length cat_docs))
      accumulate_dot_scores tokenize = Ok [(s, 0)] ∧
    (0 < s)%R.
Proof.
  destruct (with_freq_total cat_docs) as [idx Hidx].
  destruct (compute_idf_get idx 3 0 1) as (idf & Hcompute & Hnd & Hidf); [done|].
  pose proof (cat_idf_includes _ _ Hidx Hidf) as Hinc.
  pose proof (cat_idf_cat _ _ Hidx Hidf) as Hcat.
  assert (Dict.get idx "cat" = Some [(0, 1)]) as Hidxcat
    by (by rewrite (cat_index_get _ _ Hidx)).
  pose proof cat_idf_pos as Hpos.
  set (num := (0 + INR (1 * 1) * cat_idf ^ 2)%R).
  assert (accumulate_dot_scores (Counter (tokenize "cat")) idx idf = Ok [(0, num)])
    as Hacc.
  { rewrite accumulate_dot_scores_total by (intros word _; apply Hinc).
    f_equal. unfold contribs. rewrite (bind_single _ _ "cat").
    - rewrite (word_contribs_get _ _ _ _ _ Hidxcat).
      change (Dict.mem (Counter (tokenize "cat")) "cat") with true. csimpl.
      unfold tally, add_score, weight. cbn [foldl fst snd].
      by rewrite (get_default_Some _ _ _ _ Hcat).
    - by eapply with_freq_keys_NoDup.
    - apply elem_of_keys. by rewrite Hidxcat.
    - intros word _ Hne. unfold word_contribs.
      assert (Dict.mem (Counter (tokenize "cat")) word = false) as ->; [|done].
      apply mem_false. by intros ->%list_elem_of_singleton. }
  set (norms := compute_doc_norms idx idf (length cat_docs)).
  set (qn := sum_R (query_norm_terms idf (Counter (tokenize "cat")) (tokenize "cat"))).
  exists idx, idf, (num / (sqrt qn * entry norms 0))%R. split_and!; [done|done|done| |].
  - rewrite (index_search_ranked _ _ _ _ _ Hacc); [done|].
    intros d ->%list_elem_of_singleton. unfold norms.
    rewrite compute_doc_norms_length. simpl. lia.
  - assert (0 < num)%R as Hnum.
    { unfold num. rewrite Rplus_0_l. apply Rmult_lt_0_compat; [|by apply pow_lt].
      apply lt_0_INR. simpl. lia. }
    assert (0 < sqrt qn)%R as Hqn.
    { apply sqrt_lt_R0. unfold qn, query_norm_terms.
      change (tokenize "cat") with ["cat"]. rewrite filter_cons, decide_True
        by (apply elem_of_keys; by rewrite Hcat).
      csimpl. rewrite (get_default_Some _ _ _ _ Hcat).
      change (Dict.get_default (Counter ["cat"]) "cat" 0) with 1.
      rewrite Rplus_0_r. apply pow_lt. apply Rmult_lt_0_compat; [done|].
      apply lt_0_INR. lia. }
    assert (0 < entry norms 0)%R as Hnorm.
    { unfold norms. rewrite compute_doc_norms_entry by (simpl; lia).
      apply sqrt_lt_R0. eapply Rlt_le_trans; [|apply (sum_sq_elem _ (1, cat_idf))].
      - unfold sq_tfidf. simpl. apply pow_lt. apply Rmult_lt_0_compat; [|done].
        apply lt_0_INR. lia.
      - apply list_elem_of_bind. exists ("cat", cat_idf). split; [|by apply get_elem_of].
        unfold word_entries. cbn [fst snd]. rewrite (get_default_Some _ _ _ _ Hidxcat).
        apply list_elem_of_here. }
    apply Rdiv_lt_0_compat; [done|]. by apply Rmult_lt_0_compat.
Qed.
End cat_example.

(** C5: on the three documents, with [min_df = 0] and [max_df_ratio = 1],
    every term of the index has an idf value, and the ranking for "cat"
    puts document 0 strictly above document 2, whose score is 0: document
    0 is the single entry, with a positive score, and document 2, which
    shares no token with the query, is not listed. *)
Theorem cat_ranking `{SetOrder} :
  ∃ idx idf results s,
    build_token_inverted_index_with_freq cat_docs (build_doc_inverted_index cat_docs)
      = Ok idx ∧
    compute_idf idx (length cat_docs) 0 1 = Ok idf ∧
    (∀ t, t ∈ Dict.keys idx → t ∈ Dict.keys idf) ∧
    index_search "cat" idx idf (compute_doc_norms idx idf (length cat_docs))
      accumulate_dot_scores tokenize = Ok results ∧
    results = [(s, 0)] ∧ (0 < s)%R ∧ (∀ s2, (s2, 2) ∉ results) ∧
    score_of results 0 = s ∧ score_of results 2 = 0%R ∧
    (score_of results 2 < score_of results 0)%R.
Proof.
  destruct cat_search as (idx & idf & s & Hidx & Hidf & Hinc & Hsearch & Hpos).
  exists idx, idf, [(s, 0)], s. split_and!; try done.
  intros s2 Hin. by apply list_elem_of_singleton in Hin.
Qed.

(** ** The pruned term, end to end

    [get_doc_rankings] computes the idf table with [max_df_ratio = 1], which
    drops every term that occurs in all documents; a query that holds such
    a term then reaches the unguarded lookup of the scorer. *)
Lemma get_doc_rankings_pruned_term `{SetOrder} :
  get_doc_rankings "the" ["the cat"; "the dog"] 5 = Raise KeyError.
Proof.
  unfold get_doc_rankings.
  destruct (with_freq_total ["the cat"; "the dog"]) as [idx Hidx].
  rewrite Hidx. cbn [bind].
  destruct (compute_idf_get idx 2 0 1) as (idf & Hcompute & _ & Hidf); [done|].
  change (length ["the cat"; "the dog"]) with 2. rewrite Hcompute. cbn [bind].
  assert (Dict.get idx "the" = Some [(0, 1); (1, 1)]) as Hthe.
  { by rewrite (with_freq_get _ _ _ _ Hidx). }
  assert (Dict.get idf "the" = None) as Hpruned.
  { rewrite Hidf. unfold idf_value. rewrite Hthe. cbn [length Nat.leb andb].
    assert (Rltb (INR 2 / INR 2) 1 = false) as ->; [|done].
    apply Rltb_false. rewrite INR_IZR_INZ. change (Z.of_nat 2) with 2%Z. lra. }
  rewrite index_search_eq. cbn zeta.
  rewrite (accumulate_dot_scores_fail _ _ _ "the"); [done|].
  split_and!.
  - apply list_elem_of_here.
  - by apply not_elem_of_keys.
  - by exists (0, 1), [(1, 1)].
Qed.

(** * Further properties *)

(** ** Tokenizer *)

Section tokenizer_facts.
Implicit Types (s run w : string) (c : ascii).

Lemma app_cons c s1 s2 : String c s1 +:+ s2 = String c (s1 +:+ s2).
Proof. reflexivity. Qed.

Lemma lower_app s1 s2 : lower (s1 +:+ s2) = lower s1 +:+ lower s2.
Proof.
  induction s1 as [|c s1 IH]; [done|].
  rewrite app_cons. cbn [lower]. by rewrite app_cons, IH.
Qed.

Lemma lower_char_az c : is_az c = true → lower_char c = c.
Proof. by destruct c as [[] [] [] [] [] [] [] []]. Qed.

Lemma lower_word w : all_az w = true → lower w = w.
Proof.
  induction w as [|c w IH]; simpl; [done|].
  intros [Hc Hw]%andb_prop. by rewrite lower_char_az, IH.
Qed.

Lemma all_az_app s1 s2 : all_az (s1 +:+ s2) = all_az s1 && all_az s2.
Proof.
  induction s1 as [|c s1 IH]; [done|].
  rewrite app_cons. cbn [all_az]. by rewrite IH, andb_assoc.
Qed.

Lemma app_snoc run c s : (run +:+ String c EmptyString) +:+ s = run +:+ String c s.
Proof. induction run as [|x run IH]; [done|]. by rewrite !app_cons, IH. Qed.

Lemma app_empty_r s : s +:+ EmptyString = s.
Proof. induction s as [|c s IH]; [done|]. by rewrite app_cons, IH. Qed.

Lemma findall_az_word run w s :
  all_az w = true → findall_az run (w +:+ s) = findall_az (run +:+ w) s.
Proof.
  revert run. induction w as [|c w IH]; intros run.
  - intros _. by rewrite app_empty_r.
  - cbn [all_az]. intros [Hc Hw]%andb_prop.
    rewrite app_cons. cbn [findall_az]. rewrite Hc, IH by done. by rewrite app_snoc.
Qed.

Lemma findall_az_split run s1 c s2 :
  is_az c = false →
  findall_az run (s1 +:+ String c s2) =
  findall_az run s1 ++ findall_az EmptyString s2.
Proof.
  intros Hc. revert run. induction s1 as [|x s1 IH]; intros run.
  - change (EmptyString +:+ String c s2) with (String c s2).
    cbn [findall_az]. by rewrite Hc.
  - rewrite app_cons. cbn [findall_az].
    destruct (is_az x); [apply IH|]. by rewrite IH, app_assoc.
Qed.

Lemma flush_word run t : all_az run = true → t ∈ flush run → is_word t.
Proof.
  intros Hrun. destruct run as [|c run]; simpl; [by intros ?%elem_of_nil|].
  by intros ->%list_elem_of_singleton.
Qed.

Lemma findall_az_words run s t :
  all_az run = true → t ∈ findall_az run s → is_word t.
Proof.
  revert run. induction s as [|c s IH]; intros run Hrun; cbn [findall_az].
  - by apply flush_word.
  - destruct (is_az c) eqn:Hc.
    + apply IH. rewrite all_az_app, Hrun. cbn [all_az]. by rewrite Hc.
    + intros [Ht|Ht]%elem_of_app; [by eapply flush_word|by apply (IH EmptyString)].
Qed.

Lemma tokenize_join (ws : list string) :
  Forall is_word ws → tokenize (join_words ws) = ws.
Proof.
  unfold tokenize, join_words. induction 1 as [|w ws [Hne Hw] Hws IH]; [done|].
  destruct ws as [|w' ws].
  - simpl. rewrite (lower_word w Hw), <-(app_empty_r w) at 1.
    rewrite findall_az_word by done. simpl. by destruct w.
  - change (String.concat " " (w :: w' :: ws))
      with (w +:+ String " " (String.concat " " (w' :: ws))).
    rewrite lower_app. cbn [lower]. rewrite (lower_word w Hw).
    change (lower_char " ") with " "%char.
    rewrite findall_az_split by done. rewrite IH.
    rewrite <-(app_empty_r w) at 1. rewrite findall_az_word by done.
    simpl. by destruct w.
Qed.
End tokenizer_facts.

(** X1: every token that [tokenize] returns is a non-empty run of the
    lowercase letters a to z. *)
Theorem tokenize_words (text t : string) :
  t ∈ tokenize text → t ≠ EmptyString ∧ all_az t = true.
Proof. apply findall_az_words. done. Qed.

Lemma tokenize_words_witness :
  "dogs" ∈ tokenize "2 Dogs!" ∧ "dogs" ≠ EmptyString ∧ all_az "dogs" = true.
Proof.
  assert ("dogs" ∈ tokenize "2 Dogs!") as Hin by apply list_elem_of_here.
  split; [exact Hin|]. exact (tokenize_words "2 Dogs!" "dogs" Hin).
Defined.

(** X2: a character that is not a letter separates tokens: the tokens of
    [s1 c s2] are those of [s1] followed by those of [s2]. *)
Theorem tokenize_separator (s1 s2 : string) (c : ascii) :
  is_az (lower_char c) = false →
  tokenize (s1 +:+ String c s2) = tokenize s1 ++ tokenize s2.
Proof.
  intros Hc. unfold tokenize. rewrite lower_app. cbn [lower].
  by apply findall_az_split.
Qed.

Lemma tokenize_separator_witness :
  is_az (lower_char ",") = false ∧
  tokenize ("The cat" +:+ String "," "sat") = tokenize "The cat" ++ tokenize "sat".
Proof.
  split; [reflexivity|]. exact (tokenize_separator "The cat" "sat" "," eq_refl).
Defined.

(** X3: joining words with spaces and tokenizing gives the words back. *)
Theorem tokenize_join_words (ws : list string) :
  Forall (λ w, w ≠ EmptyString ∧ all_az w = true) ws →
  tokenize (join_words ws) = ws.
Proof. apply tokenize_join. Qed.

Lemma tokenize_join_words_witness :
  Forall (λ w, w ≠ EmptyString ∧ all_az w = true) ["the"; "cat"] ∧
  tokenize (join_words ["the"; "cat"]) = ["the"; "cat"].
Proof.
  assert (Forall (λ w, w ≠ EmptyString ∧ all_az w = true) ["the"; "cat"]) as Hws.
  { repeat constructor; discriminate. }
  split; [exact Hws|]. exact (tokenize_join_words ["the"; "cat"] Hws).
Defined.

(** ** Document ids *)

Section doc_id_facts.
Implicit Types (doc_lst l : list string) (t x : string).

Lemma first_seen_snoc l x :
  first_seen (l ++ [x]) = if decide (x ∈ l) then first_seen l else first_seen l ++ [x].
Proof.
  induction l as [|y l IH]; [done|].
  cbn [app first_seen]. rewrite IH.
  destruct (decide (x ∈ l)) as [Hin|Hnin].
  - by rewrite decide_True by (by apply list_elem_of_further).
  - rewrite filter_app, filter_cons, filter_nil.
    destruct (decide (x = y)) as [->|Hne].
    + rewrite (decide_True (P := y ∈ y :: l)) by apply list_elem_of_here.
      rewrite (decide_False (P := y ≠ y)) by (by intros []). by rewrite app_nil_r.
    + rewrite (decide_True (P := x ≠ y)) by done.
      rewrite (decide_False (P := x ∈ y :: l)); [done|].
      by intros [?|?]%elem_of_cons.
Qed.

Lemma doc_ids_upto_keys doc_lst n :
  n ≤ length doc_lst →
  Dict.keys (doc_ids_upto doc_lst n) = first_seen (take n doc_lst).
Proof.
  induction n as [|n IH]; intros Hn; [done|].
  destruct (lookup_lt_is_Some_2 doc_lst n) as [doc Hdoc]; [lia|].
  rewrite (doc_ids_upto_S _ _ doc), (take_S_r _ _ doc) by done.
  rewrite first_seen_snoc. specialize (IH ltac:(lia)).
  destruct (decide (doc ∈ take n doc_lst)) as [Hin|Hnin].
  - rewrite keys_set_Some; [done|]. apply elem_of_keys.
    rewrite IH. by apply first_seen_elem.
  - rewrite keys_set_None; [by rewrite IH|]. apply not_elem_of_keys.
    rewrite IH. by rewrite first_seen_elem.
Qed.

Lemma build_doc_inverted_index_first_seen doc_lst :
  Dict.keys (build_doc_inverted_index doc_lst) = first_seen doc_lst.
Proof.
  change (build_doc_inverted_index doc_lst)
    with (doc_ids_upto doc_lst (length doc_lst)).
  by rewrite doc_ids_upto_keys, firstn_all.
Qed.
End doc_id_facts.

(** X4: the keys of the id map are the distinct texts in the order of their
    first occurrence, every id is a position of the sequence, and two
    different texts never get the same id. *)
Theorem build_doc_inverted_index_ids (doc_lst : list string) :
  Dict.keys (build_doc_inverted_index doc_lst) = first_seen doc_lst ∧
  NoDup (Dict.keys (build_doc_inverted_index doc_lst)) ∧
  (∀ t i, Dict.get (build_doc_inverted_index doc_lst) t = Some i →
          i < length doc_lst) ∧
  (∀ t1 t2 i,
     Dict.get (build_doc_inverted_index doc_lst) t1 = Some i →
     Dict.get (build_doc_inverted_index doc_lst) t2 = Some i → t1 = t2).
Proof.
  split_and!.
  - apply build_doc_inverted_index_first_seen.
  - rewrite build_doc_inverted_index_first_seen. apply first_seen_NoDup.
  - intros t i [Hi _]%build_doc_inverted_index_get. by eapply lookup_lt_Some.
  - intros t1 t2 i [H1 _]%build_doc_inverted_index_get
      [H2 _]%build_doc_inverted_index_get. congruence.
Qed.

Lemma build_doc_inverted_index_ids_witness :
  Dict.get (build_doc_inverted_index ["a"; "b"; "a"]) "a" = Some 2 ∧
  2 < length ["a"; "b"; "a"].
Proof.
  split; [reflexivity|].
  exact (proj1 (proj2 (proj2 (build_doc_inverted_index_ids ["a"; "b"; "a"])))
           "a" 2 eq_refl).
Defined.

(** ** Index builders *)

Section builder_facts.
Context `{SetOrder}.
Implicit Types (doc_lst : list string) (doc_inv_idx : dict string nat)
  (t doc : string).

Lemma index_docs_fail {P} (entry : nat → list string → string → P)
    doc_inv_idx doc_lst (idx : dict string (list P)) doc :
  doc ∈ doc_lst → doc ∉ Dict.keys doc_inv_idx →
  index_docs entry doc_inv_idx doc_lst idx = Raise KeyError.
Proof.
  unfold index_docs. intros Hin Hno. revert idx.
  induction doc_lst as [|d doc_lst IH]; intros idx; [by apply elem_of_nil in Hin|].
  cbn [for_each]. unfold Dict.getitem.
  destruct (Dict.get doc_inv_idx d) as [i|] eqn:Hd; cbn [bind]; [|done].
  apply elem_of_cons in Hin as [->|Hin]; [|by apply IH].
  apply not_elem_of_keys in Hno. congruence.
Qed.

Lemma get_map_postings {P Q} (f : P → Q) (idx : dict string (list P)) t :
  Dict.get (map_postings f idx) t = (λ ps : list P, f <$> ps) <$> Dict.get idx t.
Proof.
  induction idx as [|[k ps] idx IH]; [done|].
  cbn. destruct (decide (t = k)); [done|apply IH].
Qed.

Lemma set_map_postings {P Q} (f : P → Q) (idx : dict string (list P)) t
    (ps : list P) :
  Dict.set t (f <$> ps) (map_postings f idx) = map_postings f (Dict.set t ps idx).
Proof.
  induction idx as [|[k ps'] idx IH]; [done|].
  cbn. destruct (decide (t = k)); [done|]. cbn. f_equal. apply IH.
Qed.

Lemma add_posting_map {P Q} (f : P → Q) (e : P) (idx : dict string (list P)) t :
  add_posting (f e) (map_postings f idx) t = map_postings f (add_posting e idx t).
Proof.
  unfold add_posting. rewrite get_map_postings.
  destruct (Dict.get idx t) as [ps|]; cbn [fmap option_fmap option_map].
  - by rewrite <-set_map_postings, fmap_app.
  - by rewrite <-set_map_postings.
Qed.

Lemma add_postings_map {P Q} (f : P → Q) (e : string → P) (l : list string)
    (idx : dict string (list P)) :
  foldl (λ idx tok, add_posting (f (e tok)) idx tok) (map_postings f idx) l =
  map_postings f (foldl (λ idx tok, add_posting (e tok) idx tok) idx l).
Proof.
  revert idx. induction l as [|tok l IH]; intros idx; [done|].
  cbn [foldl]. by rewrite add_posting_map, IH.
Qed.

Lemma index_docs_map {P Q} (f : P → Q) (entry : nat → list string → string → P)
    doc_inv_idx doc_lst (idx idx' : dict string (list P)) :
  index_docs entry doc_inv_idx doc_lst idx = Ok idx' →
  index_docs (λ i toks tok, f (entry i toks tok)) doc_inv_idx doc_lst
    (map_postings f idx) = Ok (map_postings f idx').
Proof.
  unfold index_docs. revert idx.
  induction doc_lst as [|d doc_lst IH]; intros idx; cbn [for_each].
  - by intros [= ->].
  - destruct (Dict.getitem doc_inv_idx d) as [i|]; cbn [bind]; [|done].
    intros Hrest. apply IH in Hrest. rewrite <-Hrest. f_equal.
    apply (add_postings_map f (entry i (tokenize d))).
Qed.

Lemma postings_of_length {P} (entry : nat → list string → string → P)
    doc_inv_idx doc_lst t :
  (∀ doc, doc ∈ doc_lst → doc ∈ Dict.keys doc_inv_idx) →
  length (postings_of entry doc_inv_idx t doc_lst) = length (docs_with t doc_lst).
Proof.
  unfold postings_of, docs_with.
  induction doc_lst as [|d doc_lst IH]; intros Hids; [done|].
  csimpl. rewrite filter_cons.
  assert (length (omap
    (λ doc, if decide (t ∈ tokenize doc)
            then (λ doc_idx, entry doc_idx (tokenize doc) t) <$> Dict.get doc_inv_idx doc
            else None) doc_lst)
    = length (filter (λ doc, t ∈ tokenize doc) doc_lst)) as Hrest.
  { apply IH. intros doc Hdoc. by apply Hids, list_elem_of_further. }
  destruct (decide (t ∈ tokenize d)); [|done].
  destruct (proj1 (elem_of_keys doc_inv_idx d)) as [i ->];
    [apply Hids, list_elem_of_here|].
  csimpl. by rewrite Hrest.
Qed.

Lemma postings_of_elem doc_inv_idx doc_lst t (i tf : nat) :
  (i, tf) ∈ postings_of freq_entry doc_inv_idx t doc_lst ↔
  ∃ doc, doc ∈ doc_lst ∧ t ∈ tokenize doc ∧ Dict.get doc_inv_idx doc = Some i ∧
         tf = count t (tokenize doc).
Proof.
  unfold postings_of. rewrite list_elem_of_omap. split.
  - intros (doc & Hdoc & Hentry). exists doc.
    destruct (decide (t ∈ tokenize doc)); [|done].
    destruct (Dict.get doc_inv_idx doc) as [j|]; [|done].
    unfold freq_entry in Hentry. by simplify_eq/=.
  - intros (doc & Hdoc & Ht & Hi & ->). exists doc. split; [done|].
    rewrite decide_True by done. by rewrite Hi.
Qed.

Lemma extend_None_Some {P} (l ps : list P) :
  extend None l = Some ps ↔ l = ps ∧ ps ≠ [].
Proof.
  destruct l as [|x l]; simpl.
  - split; [done|]. by intros [<- ?].
  - split; [by intros [= <-]|by intros [-> _]].
Qed.
End builder_facts.

(** X5: both index builders succeed when every document of the list is a
    key of the id map, and raise [KeyError] when one is not. *)
Theorem index_builders_key_error `{SetOrder} (doc_lst : list string)
    (doc_inv_idx : dict string nat) :
  ((∀ doc, doc ∈ doc_lst → doc ∈ Dict.keys doc_inv_idx) →
   (∃ idx, build_token_inverted_index doc_lst doc_inv_idx = Ok idx) ∧
   (∃ idx, build_token_inverted_index_with_freq doc_lst doc_inv_idx = Ok idx)) ∧
  (∀ doc, doc ∈ doc_lst → doc ∉ Dict.keys doc_inv_idx →
   build_token_inverted_index doc_lst doc_inv_idx = Raise KeyError ∧
   build_token_inverted_index_with_freq doc_lst doc_inv_idx = Raise KeyError).
Proof.
  split.
  - intros Hids. split.
    + by apply (index_docs_total id_entry).
    + by apply (index_docs_total freq_entry).
  - intros doc Hdoc Hno. split.
    + by apply (index_docs_fail id_entry _ _ _ doc).
    + by apply (index_docs_fail freq_entry _ _ _ doc).
Qed.

Lemma index_builders_key_error_witness :
  ((∀ doc, doc ∈ ["a b"] → doc ∈ Dict.keys [("a b", 0)]) ∧
   (∃ idx, build_token_inverted_index ["a b"] [("a b", 0)] = Ok idx) ∧
   (∃ idx, build_token_inverted_index_with_freq ["a b"] [("a b", 0)] = Ok idx)) ∧
  ("c" ∈ ["a b"; "c"] ∧ ("c" ∉ Dict.keys [("a b", 0)]) ∧
   build_token_inverted_index ["a b"; "c"] [("a b", 0)] = Raise KeyError ∧
   build_token_inverted_index_with_freq ["a b"; "c"] [("a b", 0)] = Raise KeyError).
Proof.
  split.
  - assert (∀ doc, doc ∈ ["a b"] → doc ∈ Dict.keys [("a b", 0)]) as Hids.
    { intros doc Hdoc. exact Hdoc. }
    split; [exact Hids|].
    exact (proj1 (index_builders_key_error ["a b"] [("a b", 0)]) Hids).
  - assert ("c" ∈ ["a b"; "c"]) as Hdoc.
    { apply list_elem_of_further, list_elem_of_here. }
    assert ("c" ∉ Dict.keys [("a b", 0)]) as Hno.
    { intros Hin. apply list_elem_of_singleton in Hin. discriminate Hin. }
    split; [exact Hdoc|]. split; [exact Hno|].
    exact (proj2 (index_builders_key_error ["a b"; "c"] [("a b", 0)]) "c" Hdoc Hno).
Defined.

(** X6: on the id map of [build_doc_inverted_index] the builders never
    raise, and the boolean index is the frequency index with the
    frequencies dropped: the same terms in the same order, the same
    document ids in the same order. *)
Theorem boolean_index_projection `{SetOrder} (doc_lst : list string) :
  ∃ idx,
    build_token_inverted_index_with_freq doc_lst (build_doc_inverted_index doc_lst)
      = Ok idx ∧
    build_token_inverted_index doc_lst (build_doc_inverted_index doc_lst)
      = Ok (map_postings fst idx).
Proof.
  destruct (with_freq_total doc_lst) as [idx Hidx]. exists idx. split; [done|].
  by apply (index_docs_map fst freq_entry _ _ []) in Hidx.
Qed.

(** X7: the terms of the index are, each once, the tokens that occur in
    some document; no posting list is empty, and the length of the posting
    list of a term is the number of documents of the list that hold it. *)
Theorem index_terms `{SetOrder} (doc_lst : list string) :
  ∃ idx,
    build_token_inverted_index_with_freq doc_lst (build_doc_inverted_index doc_lst)
      = Ok idx ∧
    NoDup (Dict.keys idx) ∧
    (∀ t, t ∈ Dict.keys idx ↔ ∃ doc, doc ∈ doc_lst ∧ t ∈ tokenize doc) ∧
    (∀ t postings, Dict.get idx t = Some postings →
       postings ≠ [] ∧ length postings = length (docs_with t doc_lst)).
Proof.
  destruct (with_freq_total doc_lst) as [idx Hidx]. exists idx.
  assert (∀ t, length (postings_of freq_entry (build_doc_inverted_index doc_lst) t doc_lst)
               = length (docs_with t doc_lst)) as Hlen.
  { intros t. apply postings_of_length. intros doc Hdoc.
    by apply build_doc_inverted_index_keys. }
  split_and!; [done|by eapply with_freq_keys_NoDup| |].
  - intros t. rewrite elem_of_keys, (with_freq_get _ _ _ _ Hidx).
    specialize (Hlen t). unfold docs_with in *. split.
    + intros [ps [Heq Hne]%extend_None_Some]. rewrite Heq in Hlen.
      destruct (filter _ doc_lst) as [|doc l] eqn:Hf.
      * by destruct ps.
      * assert (doc ∈ filter (λ doc, t ∈ tokenize doc) doc_lst) as Hin
          by (rewrite Hf; apply list_elem_of_here).
        apply list_elem_of_filter in Hin as [? ?]. by exists doc.
    + intros (doc & Hdoc & Ht).
      assert (doc ∈ filter (λ doc, t ∈ tokenize doc) doc_lst) as Hin
        by (by apply list_elem_of_filter).
      destruct (postings_of _ _ _ _) as [|p ps]; simpl; [|by eexists].
      destruct (filter _ doc_lst); [by apply elem_of_nil in Hin|done].
  - intros t ps. rewrite (with_freq_get _ _ _ _ Hidx).
    intros [<- Hne]%extend_None_Some. by split.
Qed.

(** X8: the posting list of a term holds the pair [(i, tf)] exactly when
    position [i] is the last occurrence of a text that holds the term
    [tf] times. *)
Theorem index_postings `{SetOrder} (doc_lst : list string) :
  ∃ idx,
    build_token_inverted_index_with_freq doc_lst (build_doc_inverted_index doc_lst)
      = Ok idx ∧
    ∀ t i tf,
      (∃ postings, Dict.get idx t = Some postings ∧ (i, tf) ∈ postings) ↔
      ∃ doc, doc_lst !! i = Some doc ∧ (∀ j, i < j → doc_lst !! j ≠ Some doc) ∧
             t ∈ tokenize doc ∧ tf = count t (tokenize doc).
Proof.
  destruct (with_freq_total doc_lst) as [idx Hidx]. exists idx. split; [done|].
  intros t i tf. rewrite (with_freq_get _ _ _ _ Hidx). split.
  - intros (ps & [<- _]%extend_None_Some & Hin).
    apply postings_of_elem in Hin as (doc & _ & Ht & Hi & ->).
    apply build_doc_inverted_index_get in Hi as [Hi Hlast]. by exists doc.
  - intros (doc & Hi & Hlast & Ht & ->).
    assert ((i, count t (tokenize doc))
              ∈ postings_of freq_entry (build_doc_inverted_index doc_lst) t doc_lst)
      as Hin.
    { apply postings_of_elem. exists doc. split_and!; try done.
      - by eapply list_elem_of_lookup_2.
      - by apply build_doc_inverted_index_get. }
    eexists. split; [|exact Hin]. apply extend_None_Some. split; [done|].
    intros Hnil. rewrite Hnil in Hin. by apply elem_of_nil in Hin.
Qed.

(** ** Boolean matcher *)

Section boolean_more.
Implicit Types (idx : dict string (list nat)) (results : gset nat)
  (toks : list string) (tok : string) (d : nat).

Lemma boolean_loop_unknown idx toks results tok :
  tok ∈ toks → tok ∉ Dict.keys idx → boolean_loop idx toks results = [].
Proof.
  intros Hin Hno. apply not_elem_of_keys in Hno. revert results.
  induction toks as [|t toks IH]; intros results; [by apply elem_of_nil in Hin|].
  cbn [boolean_loop]. destruct (Dict.get idx t) as [ps|] eqn:Ht; [|done].
  apply elem_of_cons in Hin as [->|Hin]; [congruence|by apply IH].
Qed.

Lemma boolean_loop_known idx toks results d :
  (∀ tok, tok ∈ toks → tok ∈ Dict.keys idx) →
  d ∈ boolean_loop idx toks results ↔
  d ∈ results ∧
  ∀ tok postings, tok ∈ toks → Dict.get idx tok = Some postings → d ∈ postings.
Proof.
  revert results. induction toks as [|t toks IH]; intros results Hknown.
  - cbn [boolean_loop]. rewrite elem_of_elements. split; [|by intros [? _]].
    intros Hd. split; [done|]. by intros tok ps ?%elem_of_nil.
  - cbn [boolean_loop].
    destruct (proj1 (elem_of_keys idx t)) as [ps Hps]; [apply Hknown, list_elem_of_here|].
    rewrite Hps, IH by (intros; by apply Hknown, list_elem_of_further).
    rewrite elem_of_intersection, elem_of_list_to_set. split.
    + intros [[Hd Hps'] Hrest]. split; [done|].
      intros tok ps' [->|Htok]%elem_of_cons Hget; [congruence|by eapply Hrest].
    + intros [Hd Hall]. split_and!; [done|by apply (Hall t); [apply list_elem_of_here|]|].
      intros tok ps' Htok. by apply Hall, list_elem_of_further.
Qed.

Lemma boolean_search_known q idx n d :
  (∀ tok, tok ∈ tokenize q → tok ∈ Dict.keys idx) →
  d ∈ boolean_search q idx n ↔
  d < n ∧
  ∀ tok postings, tok ∈ tokenize q → Dict.get idx tok = Some postings → d ∈ postings.
Proof.
  intros Hknown. unfold boolean_search. rewrite boolean_loop_known by done.
  rewrite elem_of_list_to_set, elem_of_seq. split; intros [? ?]; (split; [lia|done]).
Qed.
End boolean_more.

(** X9: a query that holds a token unknown to the index matches nothing. *)
Theorem boolean_search_unknown_token (query : string)
    (token_inv_idx : dict string (list nat)) (n : nat) (tok : string) :
  tok ∈ tokenize query → tok ∉ Dict.keys token_inv_idx →
  boolean_search query token_inv_idx n = [].
Proof. intros Hin Hno. by eapply boolean_loop_unknown. Qed.

Lemma boolean_search_unknown_token_witness :
  "dog" ∈ tokenize "cat dog" ∧ ("dog" ∉ Dict.keys [("cat", [0; 1])]) ∧
  boolean_search "cat dog" [("cat", [0; 1])] 2 = [].
Proof.
  assert ("dog" ∈ tokenize "cat dog") as Hin.
  { apply list_elem_of_further, list_elem_of_here. }
  assert ("dog" ∉ Dict.keys [("cat", [0; 1])]) as Hno.
  { intros Hk. apply list_elem_of_singleton in Hk. discriminate Hk. }
  split; [exact Hin|]. split; [exact Hno|].
  exact (boolean_search_unknown_token "cat dog" [("cat", [0; 1])] 2 "dog" Hin Hno).
Defined.

(** X10: when every token of the query is a term of the index, the result
    lists, each once, exactly the document ids below [n] that are in the
    posting list of every token. *)
Theorem boolean_search_conjunction (query : string)
    (token_inv_idx : dict string (list nat)) (n : nat) :
  (∀ tok, tok ∈ tokenize query → tok ∈ Dict.keys token_inv_idx) →
  NoDup (boolean_search query token_inv_idx n) ∧
  ∀ d, d ∈ boolean_search query token_inv_idx n ↔
       d < n ∧
       ∀ tok postings, tok ∈ tokenize query →
         Dict.get token_inv_idx tok = Some postings → d ∈ postings.
Proof.
  intros Hknown. split; [apply boolean_loop_NoDup|].
  intros d. by apply boolean_search_known.
Qed.

Lemma boolean_search_conjunction_witness :
  (∀ tok, tok ∈ tokenize "cat sat" →
          tok ∈ Dict.keys [("cat", [0; 2]); ("sat", [0; 1])]) ∧
  NoDup (boolean_search "cat sat" [("cat", [0; 2]); ("sat", [0; 1])] 3) ∧
  ∀ d, d ∈ boolean_search "cat sat" [("cat", [0; 2]); ("sat", [0; 1])] 3 ↔
       d < 3 ∧
       ∀ tok postings, tok ∈ tokenize "cat sat" →
         Dict.get [("cat", [0; 2]); ("sat", [0; 1])] tok = Some postings →
         d ∈ postings.
Proof.
  assert (∀ tok, tok ∈ tokenize "cat sat" →
                 tok ∈ Dict.keys [("cat", [0; 2]); ("sat", [0; 1])]) as Hknown.
  { intros tok Htok. exact Htok. }
  split; [exact Hknown|].
  exact (boolean_search_conjunction "cat sat" [("cat", [0; 2]); ("sat", [0; 1])] 3
           Hknown).
Defined.

(** X11: the result depends only on which tokens the query holds, not on
    their order or repetition. *)
Theorem boolean_search_token_set (q1 q2 : string)
    (token_inv_idx : dict string (list nat)) (n : nat) :
  (∀ tok, tok ∈ tokenize q1 ↔ tok ∈ tokenize q2) →
  boolean_search q1 token_inv_idx n ≡ₚ boolean_search q2 token_inv_idx n.
Proof.
  intros Hsame.
  destruct (decide (Forall (λ tok, tok ∈ Dict.keys token_inv_idx) (tokenize q1)))
    as [Hknown|Hunknown].
  - rewrite Forall_forall in Hknown.
    assert (∀ tok, tok ∈ tokenize q2 → tok ∈ Dict.keys token_inv_idx) as Hknown2.
    { intros tok Htok. by apply Hknown, Hsame. }
    apply NoDup_Permutation; [apply boolean_loop_NoDup..|].
    intros d. rewrite !boolean_search_known by done.
    split; intros [Hd Hall]; (split; [done|]); intros tok ps Htok;
      by apply Hall, Hsame.
  - apply not_Forall_Exists, Exists_exists in Hunknown as (tok & Htok & Hno);
      [|apply _].
    rewrite (boolean_loop_unknown _ _ _ tok Htok Hno : boolean_search q1 _ _ = []).
    assert (tok ∈ tokenize q2) as Htok2 by (by apply Hsame).
    by rewrite (boolean_loop_unknown _ _ _ tok Htok2 Hno : boolean_search q2 _ _ = []).
Qed.

Lemma boolean_search_token_set_witness :
  (∀ tok, tok ∈ tokenize "cat sat" ↔ tok ∈ tokenize "sat cat, cat") ∧
  boolean_search "cat sat" [("cat", [0; 2]); ("sat", [0; 1])] 3
    ≡ₚ boolean_search "sat cat, cat" [("cat", [0; 2]); ("sat", [0; 1])] 3.
Proof.
  assert (∀ tok, tok ∈ tokenize "cat sat" ↔ tok ∈ tokenize "sat cat, cat") as Hsame.
  { intros tok. change (tokenize "cat sat") with ["cat"; "sat"].
    change (tokenize "sat cat, cat") with ["sat"; "cat"; "cat"].
    rewrite !elem_of_cons, elem_of_nil. tauto. }
  split; [exact Hsame|].
  exact (boolean_search_token_set "cat sat" "sat cat, cat"
           [("cat", [0; 2]); ("sat", [0; 1])] 3 Hsame).
Defined.

Section boolean_pipeline.
Context `{SetOrder}.
Implicit Types (doc_lst : list string) (doc_inv_idx : dict string nat)
  (t doc : string).

Lemma boolean_index_get doc_lst doc_inv_idx idx t :
  build_token_inverted_index doc_lst doc_inv_idx = Ok idx →
  Dict.get idx t = extend None (postings_of id_entry doc_inv_idx t doc_lst).
Proof. intros Hb. by apply (index_docs_get id_entry _ _ [] idx t) in Hb. Qed.

Lemma postings_of_ids doc_inv_idx doc_lst t (i : nat) :
  i ∈ postings_of id_entry doc_inv_idx t doc_lst ↔
  ∃ doc, doc ∈ doc_lst ∧ t ∈ tokenize doc ∧ Dict.get doc_inv_idx doc = Some i.
Proof.
  unfold postings_of. rewrite list_elem_of_omap. split.
  - intros (doc & Hdoc & Hentry). exists doc.
    destruct (decide (t ∈ tokenize doc)); [|done].
    destruct (Dict.get doc_inv_idx doc) as [j|]; [|done].
    unfold id_entry in Hentry. by simplify_eq/=.
  - intros (doc & Hdoc & Ht & Hi). exists doc. split; [done|].
    rewrite decide_True by done. by rewrite Hi.
Qed.

(** On a collection of pairwise distinct texts: which documents the built
    boolean index lists for a term. *)
Lemma boolean_index_postings doc_lst idx t postings d :
  NoDup doc_lst →
  build_token_inverted_index doc_lst (build_doc_inverted_index doc_lst) = Ok idx →
  Dict.get idx t = Some postings →
  d ∈ postings ↔ ∃ doc, doc_lst !! d = Some doc ∧ t ∈ tokenize doc.
Proof.
  intros Hnd Hb. rewrite (boolean_index_get _ _ _ _ Hb).
  intros [<- _]%extend_None_Some. rewrite postings_of_ids. split.
  - intros (doc & _ & Ht & Hd). exists doc. split; [|done].
    by apply build_doc_inverted_index_distinct.
  - intros (doc & Hd & Ht). exists doc. split_and!; [|done|].
    + by eapply list_elem_of_lookup_2.
    + by apply build_doc_inverted_index_distinct.
Qed.

Lemma boolean_index_keys doc_lst idx t :
  build_token_inverted_index doc_lst (build_doc_inverted_index doc_lst) = Ok idx →
  t ∈ Dict.keys idx ↔ ∃ doc, doc ∈ doc_lst ∧ t ∈ tokenize doc.
Proof.
  intros Hb. rewrite elem_of_keys, (boolean_index_get _ _ _ _ Hb). split.
  - intros [ps [Heq Hne]%extend_None_Some].
    destruct ps as [|i ps]; [done|].
    assert (i ∈ postings_of id_entry (build_doc_inverted_index doc_lst) t doc_lst)
      as Hin by (rewrite Heq; apply list_elem_of_here).
    apply postings_of_ids in Hin as (doc & ? & ? & _). by exists doc.
  - intros (doc & Hdoc & Ht).
    destruct (proj1 (elem_of_keys (build_doc_inverted_index doc_lst) doc)) as [i Hi].
    { by apply build_doc_inverted_index_keys. }
    assert (i ∈ postings_of id_entry (build_doc_inverted_index doc_lst) t doc_lst)
      as Hin by (apply postings_of_ids; by exists doc).
    destruct (postings_of _ _ _ _) as [|j l]; [by apply elem_of_nil in Hin|].
    by eexists.
Qed.

Lemma boolean_pipeline_match doc_lst idx query d :
  NoDup doc_lst →
  build_token_inverted_index doc_lst (build_doc_inverted_index doc_lst) = Ok idx →
  d ∈ boolean_search query idx (length doc_lst) ↔
  ∃ doc, doc_lst !! d = Some doc ∧ ∀ tok, tok ∈ tokenize query → tok ∈ tokenize doc.
Proof.
  intros Hnd Hb.
  destruct (decide (Forall (λ tok, tok ∈ Dict.keys idx) (tokenize query)))
    as [Hknown|Hunknown].
  - rewrite Forall_forall in Hknown. rewrite boolean_search_known by done. split.
    + intros [Hd Hall].
      destruct (lookup_lt_is_Some_2 doc_lst d Hd) as [doc Hdoc].
      exists doc. split; [done|]. intros tok Htok.
      destruct (proj1 (elem_of_keys idx tok) (Hknown tok Htok)) as [ps Hps].
      specialize (Hall tok ps Htok Hps).
      apply (boolean_index_postings _ _ _ _ d Hnd Hb Hps) in Hall as (doc' & Hd' & Ht).
      congruence.
    + intros (doc & Hdoc & Hall). split; [by eapply lookup_lt_Some|].
      intros tok ps Htok Hps.
      apply (boolean_index_postings _ _ _ _ d Hnd Hb Hps). exists doc. auto.
  - apply not_Forall_Exists, Exists_exists in Hunknown as (tok & Htok & Hno);
      [|apply _].
    rewrite (boolean_loop_unknown _ _ _ tok Htok Hno : boolean_search query _ _ = []).
    split; [by intros ?%elem_of_nil|].
    intros (doc & Hdoc & Hall). destruct Hno.
    apply (boolean_index_keys _ _ _ Hb). exists doc.
    split; [by eapply list_elem_of_lookup_2|by apply Hall].
Qed.
End boolean_pipeline.

(** X12: on the boolean index built from pairwise distinct texts,
    [boolean_search] returns exactly the positions of the documents that
    hold every token of the query. *)
Theorem boolean_search_pipeline `{SetOrder} (doc_lst : list string) :
  NoDup doc_lst →
  ∃ idx,
    build_token_inverted_index doc_lst (build_doc_inverted_index doc_lst) = Ok idx ∧
    ∀ query d,
      d ∈ boolean_search query idx (length doc_lst) ↔
      ∃ doc, doc_lst !! d = Some doc ∧
             ∀ tok, tok ∈ tokenize query → tok ∈ tokenize doc.
Proof.
  intros Hnd.
  destruct (index_docs_total id_entry (build_doc_inverted_index doc_lst) doc_lst [])
    as [idx Hidx].
  { intros doc Hdoc. by apply build_doc_inverted_index_keys. }
  exists idx. split; [done|]. intros query d. by apply boolean_pipeline_match.
Qed.

Lemma boolean_search_pipeline_witness :
  NoDup cat_docs ∧
  ∃ idx,
    build_token_inverted_index cat_docs (build_doc_inverted_index cat_docs) = Ok idx ∧
    ∀ query d,
      d ∈ boolean_search query idx (length cat_docs) ↔
      ∃ doc, cat_docs !! d = Some doc ∧
             ∀ tok, tok ∈ tokenize query → tok ∈ tokenize doc.
Proof.
  assert (NoDup cat_docs) as Hnd.
  { apply (NoDup_ListNoDup cat_docs). repeat constructor; simpl; intuition discriminate. }
  split; [exact Hnd|]. exact (@boolean_search_pipeline first_seen_order cat_docs Hnd).
Defined.

(** ** Query term counts *)

Lemma word_counts_loop_keys (tokenized l : list string) (acc : dict string nat) :
  NoDup (Dict.keys acc) →
  NoDup (Dict.keys
           (foldl (λ result tok, Dict.set tok (count tok tokenized) result) acc l)).
Proof.
  revert acc. induction l as [|x l IH]; intros acc Hnd; [done|].
  cbn [foldl]. by apply IH, NoDup_keys_set.
Qed.

(** X13: whatever the iteration order of the token set, [word_counts] maps
    exactly the tokens of the text, each once, to the number of their
    occurrences, which is at least 1. *)
Theorem word_counts_counts `{SetOrder} (str_query : string) :
  NoDup (Dict.keys (word_counts str_query)) ∧
  (∀ t, t ∈ Dict.keys (word_counts str_query) ↔ t ∈ tokenize str_query) ∧
  (∀ t c, Dict.get (word_counts str_query) t = Some c →
          c = count t (tokenize str_query) ∧ 1 ≤ c).
Proof.
  split_and!.
  - apply word_counts_loop_keys. constructor.
  - intros t. by rewrite !elem_of_keys, word_counts_get, <-elem_of_keys, Counter_keys.
  - intros t c. rewrite word_counts_get, Counter_get.
    destruct (decide (t ∈ tokenize str_query)) as [Hin|]; [|done].
    intros [= <-]. split; [done|]. by apply count_pos.
Qed.

Lemma word_counts_counts_witness :
  Dict.get (@word_counts first_seen_order "the cat, the dog") "the" = Some 2 ∧
  2 = count "the" (tokenize "the cat, the dog") ∧ 1 ≤ 2.
Proof.
  split; [reflexivity|].
  exact (proj2 (proj2 (@word_counts_counts first_seen_order "the cat, the dog"))
           "the" 2 eq_refl).
Defined.

(** ** Inverse document frequencies *)

Section idf_more.
Context {P : Type} (inv_idx : dict string (list P)) (min_df : nat)
  (max_df_ratio : R).
Implicit Types (idf : dict string R) (term t : string) (terms : list string)
  (n_docs : nat).

Lemma idf_loop_zero_division terms idf term postings :
  (∀ t, t ∈ terms → t ∈ Dict.keys inv_idx) →
  term ∈ terms → Dict.get inv_idx term = Some postings →
  min_df ≤ length postings →
  idf_loop inv_idx 0 min_df max_df_ratio terms idf = Raise ZeroDivisionError.
Proof.
  intros Hkeys Hin Hget Hdf. revert idf.
  induction terms as [|t terms IH]; intros idf; [by apply elem_of_nil in Hin|].
  unfold idf_loop. cbn [for_each].
  destruct (getitem_keys inv_idx t) as (ps & -> & Hps); [apply Hkeys, list_elem_of_here|].
  cbn [bind]. destruct (min_df <=? length ps) eqn:Hle; cbn [Nat.eqb bind]; [done|].
  apply Nat.leb_gt in Hle.
  apply elem_of_cons in Hin as [->|Hin]; [simplify_eq; lia|].
  apply IH; [|done]. intros t' Ht'. by apply Hkeys, list_elem_of_further.
Qed.

Lemma idf_loop_below n_docs terms idf :
  (∀ t, t ∈ terms → t ∈ Dict.keys inv_idx) →
  (∀ t postings, Dict.get inv_idx t = Some postings → length postings < min_df) →
  idf_loop inv_idx n_docs min_df max_df_ratio terms idf = Ok idf.
Proof.
  intros Hkeys Hbelow. revert idf.
  induction terms as [|t terms IH]; intros idf; [done|].
  unfold idf_loop. cbn [for_each].
  destruct (getitem_keys inv_idx t) as (ps & -> & Hps); [apply Hkeys, list_elem_of_here|].
  cbn [bind]. rewrite (proj2 (Nat.leb_gt _ _) (Hbelow t ps Hps)). cbn [bind].
  apply IH. intros t' Ht'. by apply Hkeys, list_elem_of_further.
Qed.

Lemma idf_value_Some n_docs t v :
  idf_value inv_idx n_docs min_df max_df_ratio t = Some v ↔
  ∃ postings,
    Dict.get inv_idx t = Some postings ∧ min_df ≤ length postings ∧
    (INR (length postings) / INR n_docs < max_df_ratio)%R ∧
    v = log2 (INR n_docs / INR (1 + length postings)).
Proof.
  unfold idf_value. destruct (Dict.get inv_idx t) as [ps|]; [|split; [done|]].
  - destruct (min_df <=? length ps) eqn:Hle; cbn [andb].
    + apply Nat.leb_le in Hle. destruct (Rltb _ max_df_ratio) eqn:Hlt.
      * apply Rltb_true in Hlt. split.
        -- intros [= <-]. by exists ps.
        -- intros (ps' & [= <-] & _ & _ & ->). done.
      * apply Rltb_false in Hlt. split; [done|].
        intros (ps' & [= <-] & _ & Hlt' & _). lra.
    + apply Nat.leb_gt in Hle. split; [done|].
      intros (ps' & [= <-] & Hle' & _). lia.
  - by intros (ps' & ? & _).
Qed.
End idf_more.

Section log2_facts.
Lemma ln2_pos : (0 < ln 2)%R.
Proof. rewrite <-ln_1. apply ln_increasing; lra. Qed.

Lemma log2_increasing (x y : R) : (0 < x)%R → (x < y)%R → (log2 x < log2 y)%R.
Proof.
  intros Hx Hxy. unfold log2. apply Rmult_lt_compat_r.
  - apply Rinv_0_lt_compat, ln2_pos.
  - by apply ln_increasing.
Qed.

Lemma log2_1 : log2 1 = 0%R.
Proof. unfold log2. rewrite ln_1. unfold Rdiv. lra. Qed.

Lemma ratio_lt (a b c : R) : (0 < b)%R → (0 < c)%R → (b < c)%R → (0 < a)%R →
  (a / c < a / b)%R.
Proof.
  intros Hb Hc Hbc Ha. unfold Rdiv. apply Rmult_lt_compat_l; [done|].
  by apply Rinv_lt_contravar; [apply Rmult_lt_0_compat|].
Qed.

Lemma idf_formula_pos (n df : nat) : n ≠ 0 → (0 < INR n / INR (1 + df))%R.
Proof.
  intros Hn. apply Rdiv_lt_0_compat; apply lt_0_INR; lia.
Qed.
End log2_facts.

(** X14: with a document count of 0, [compute_idf] raises
    [ZeroDivisionError] as soon as one term reaches [min_df]; when no term
    reaches [min_df] it returns the empty table, whatever the count. *)
Theorem compute_idf_zero_documents {P} (inv_idx : dict string (list P))
    (n_docs min_df : nat) (max_df_ratio : R) :
  (∀ term postings,
     Dict.get inv_idx term = Some postings → min_df ≤ length postings →
     compute_idf inv_idx 0 min_df max_df_ratio = Raise ZeroDivisionError) ∧
  ((∀ term postings, Dict.get inv_idx term = Some postings →
                     length postings < min_df) →
   compute_idf inv_idx n_docs min_df max_df_ratio = Ok []).
Proof.
  split.
  - intros term ps Hget Hdf.
    apply (idf_loop_zero_division _ _ _ _ _ term ps); [done| |done|done].
    apply elem_of_keys. by rewrite Hget.
  - intros Hbelow. by apply (idf_loop_below inv_idx min_df max_df_ratio n_docs).
Qed.

Lemma compute_idf_zero_documents_witness :
  (Dict.get [("cat", [(0, 1)])] "cat" = Some [(0, 1)] ∧ 0 ≤ length [(0, 1)] ∧
   compute_idf [("cat", [(0, 1)])] 0 0 1 = Raise ZeroDivisionError) ∧
  ((∀ term postings, Dict.get [("cat", [(0, 1)])] term = Some postings →
                     length postings < 2) ∧
   compute_idf [("cat", [(0, 1)])] 5 2 1 = Ok []).
Proof.
  split.
  - split; [reflexivity|]. split; [apply Nat.le_0_l|].
    exact (proj1 (compute_idf_zero_documents [("cat", [(0, 1)])] 0 0 1)
             "cat" [(0, 1)] eq_refl (Nat.le_0_l _)).
  - assert (∀ term postings, Dict.get [("cat", [(0, 1)])] term = Some postings →
                             length postings < 2) as Hbelow.
    { intros term ps. simpl. destruct (decide (term = "cat")); [|discriminate].
      intros Hps. injection Hps as <-. simpl. lia. }
    split; [exact Hbelow|].
    exact (proj2 (compute_idf_zero_documents [("cat", [(0, 1)])] 5 2 1) Hbelow).
Defined.

(** X15: with a positive document count [compute_idf] returns a table that
    holds a term exactly when the term is in the index with
    [df >= min_df] and [df / n_docs < max_df_ratio], and then maps it to
    [log2 (n_docs / (1 + df))]. *)
Theorem compute_idf_table {P} (inv_idx : dict string (list P))
    (n_docs min_df : nat) (max_df_ratio : R) :
  n_docs ≠ 0 →
  ∃ idf,
    compute_idf inv_idx n_docs min_df max_df_ratio = Ok idf ∧
    NoDup (Dict.keys idf) ∧
    ∀ t v, Dict.get idf t = Some v ↔
           ∃ postings,
             Dict.get inv_idx t = Some postings ∧ min_df ≤ length postings ∧
             (INR (length postings) / INR n_docs < max_df_ratio)%R ∧
             v = log2 (INR n_docs / INR (1 + length postings)).
Proof.
  intros Hn.
  destruct (compute_idf_get inv_idx n_docs min_df max_df_ratio Hn)
    as (idf & Hidf & Hnd & Hget).
  exists idf. split_and!; [done|done|]. intros t v.
  rewrite Hget. apply idf_value_Some.
Qed.

Lemma compute_idf_table_witness :
  2 ≠ 0 ∧
  ∃ idf,
    compute_idf [("cat", [(0, 1)])] 2 0 1 = Ok idf ∧
    NoDup (Dict.keys idf) ∧
    ∀ t v, Dict.get idf t = Some v ↔
           ∃ postings,
             Dict.get [("cat", [(0, 1)])] t = Some postings ∧ 0 ≤ length postings ∧
             (INR (length postings) / INR 2 < 1)%R ∧
             v = log2 (INR 2 / INR (1 + length postings)).
Proof.
  assert (2 ≠ 0) as Hn by discriminate.
  split; [exact Hn|]. exact (compute_idf_table [("cat", [(0, 1)])] 2 0 1 Hn).
Defined.

(** X16: an idf value is negative, zero or positive as [1 + df] is above,
    equal to or below the document count, and of two terms of the table
    the one in fewer documents has the larger idf. *)
Theorem compute_idf_order {P} (inv_idx : dict string (list P))
    (n_docs min_df : nat) (max_df_ratio : R) (idf : dict string R) :
  n_docs ≠ 0 →
  compute_idf inv_idx n_docs min_df max_df_ratio = Ok idf →
  (∀ t postings v,
     Dict.get inv_idx t = Some postings → Dict.get idf t = Some v →
     (n_docs < 1 + length postings → (v < 0)%R) ∧
     (n_docs = 1 + length postings → v = 0%R) ∧
     (1 + length postings < n_docs → (0 < v)%R)) ∧
  (∀ t1 t2 ps1 ps2 v1 v2,
     Dict.get inv_idx t1 = Some ps1 → Dict.get idf t1 = Some v1 →
     Dict.get inv_idx t2 = Some ps2 → Dict.get idf t2 = Some v2 →
     length ps1 < length ps2 → (v2 < v1)%R).
Proof.
  intros Hn Hcompute.
  destruct (compute_idf_get inv_idx n_docs min_df max_df_ratio Hn)
    as (idf' & Hidf & _ & Hget).
  rewrite Hcompute in Hidf. injection Hidf as <-.
  assert (∀ t ps v, Dict.get inv_idx t = Some ps → Dict.get idf t = Some v →
            v = log2 (INR n_docs / INR (1 + length ps))) as Hval.
  { intros t ps v Hps. rewrite Hget.
    intros (ps' & Hps' & _ & _ & ->)%idf_value_Some. congruence. }
  assert (0 < INR n_docs)%R as Hnpos by (apply lt_0_INR; lia).
  split.
  - intros t ps v Hps Hv. rewrite (Hval t ps v Hps Hv).
    assert (0 < INR (1 + length ps))%R as Hdpos by (apply lt_0_INR; lia).
    split_and!.
    + intros Hlt%lt_INR. rewrite <-log2_1. apply log2_increasing.
      * by apply Rdiv_lt_0_compat.
      * apply (Rmult_lt_reg_r (INR (1 + length ps))); [done|].
        unfold Rdiv. rewrite Rmult_assoc, Rinv_l by lra. lra.
    + intros ->. unfold Rdiv. rewrite Rinv_r by lra. apply log2_1.
    + intros Hlt%lt_INR. rewrite <-log2_1. apply log2_increasing; [lra|].
      apply (Rmult_lt_reg_r (INR (1 + length ps))); [done|].
      unfold Rdiv. rewrite Rmult_assoc, Rinv_l by lra. lra.
  - intros t1 t2 ps1 ps2 v1 v2 Hps1 Hv1 Hps2 Hv2 Hlt.
    rewrite (Hval t1 ps1 v1 Hps1 Hv1), (Hval t2 ps2 v2 Hps2 Hv2).
    apply log2_increasing; [by apply idf_formula_pos|].
    apply ratio_lt; [apply lt_0_INR; lia..| |done].
    apply lt_INR. lia.
Qed.

Lemma compute_idf_order_witness :
  3 ≠ 0 ∧
  compute_idf [("the", [0; 1]); ("cat", [0])] 3 0 1
    = Ok [("the", log2 (INR 3 / INR (1 + 2))); ("cat", log2 (INR 3 / INR (1 + 1)))] ∧
  log2 (INR 3 / INR (1 + 2)) = 0%R ∧
  (log2 (INR 3 / INR (1 + 2)) < log2 (INR 3 / INR (1 + 1)))%R.
Proof.
  assert (3 ≠ 0) as Hn by discriminate.
  assert (compute_idf [("the", [0; 1]); ("cat", [0])] 3 0 1
    = Ok [("the", log2 (INR 3 / INR (1 + 2))); ("cat", log2 (INR 3 / INR (1 + 1)))])
    as Hidf.
  { unfold compute_idf. simpl.
    rewrite (ratio_below_one 2 (le_n 2)). simpl.
    rewrite (ratio_below_one 1 (le_S 1 1 (le_n 1))). reflexivity. }
  split; [exact Hn|]. split; [exact Hidf|].
  pose proof (compute_idf_order [("the", [0; 1]); ("cat", [0])] 3 0 1 _ Hn Hidf)
    as [Hsign Horder].
  split.
  - exact (proj1 (proj2 (Hsign "the" [0; 1] _ eq_refl eq_refl)) eq_refl).
  - exact (Horder "cat" "the" [0] [0; 1] _ _ eq_refl eq_refl eq_refl eq_refl
             (le_n 2)).
Defined.

(** ** Document norms *)

Section norm_more.
Context (index : dict string (list (nat * nat))).
Implicit Types (idf : dict string R) (d : nat).

Lemma sum_sq_zero (l : list (nat * R)) :
  sum_R (sq_tfidf <$> l) = 0%R ↔ ∀ e, e ∈ l → sq_tfidf e = 0%R.
Proof.
  split.
  - intros Hsum e He. pose proof (sum_sq_elem l e He) as Hle.
    pose proof (pow2_ge_0 (INR e.1 * e.2)) as Hge. unfold sq_tfidf in *. lra.
  - induction l as [|e l IH]; intros Hall; csimpl; [done|].
    rewrite (Hall e) by apply list_elem_of_here.
    rewrite IH; [lra|]. intros e' He'. by apply Hall, list_elem_of_further.
Qed.

Lemma sq_tfidf_zero (e : nat * R) : sq_tfidf e = 0%R ↔ e.1 = 0 ∨ e.2 = 0%R.
Proof.
  unfold sq_tfidf. split.
  - intros Hsq. assert (INR e.1 * e.2 = 0)%R as Hprod.
    { apply Rsqr_0_uniq. unfold Rsqr. simpl in Hsq. lra. }
    apply Rmult_integral in Hprod as [Htf|Hv]; [left|by right].
    by apply INR_eq.
  - intros [->| ->]; simpl; unfold INR; lra.
Qed.

Lemma doc_words_elem idf d (e : nat * R) :
  e ∈ doc_words index idf d ↔
  ∃ word postings,
    (word, e.2) ∈ idf ∧ Dict.get index word = Some postings ∧ (d, e.1) ∈ postings.
Proof.
  unfold doc_words, word_entries. rewrite list_elem_of_bind. split.
  - intros ([word v] & Hin & Hidf). cbn [fst snd] in Hin.
    apply list_elem_of_fmap in Hin as ([d' tf] & -> & Hp).
    apply list_elem_of_filter in Hp as [Hd Hp]. cbn [fst snd] in *. subst d'.
    unfold Dict.get_default in Hp.
    destruct (Dict.get index word) as [postings|] eqn:Hget;
      [|by apply elem_of_nil in Hp].
    by exists word, postings.
  - intros (word & postings & Hidf & Hget & Hp). exists (word, e.2).
    split; [|done]. cbn [fst snd]. apply list_elem_of_fmap. exists (d, e.1).
    split; [by destruct e|]. apply list_elem_of_filter. split; [done|].
    unfold Dict.get_default. by rewrite Hget.
Qed.

Lemma compute_doc_norms_lookup idf (n_docs : nat) d :
  d < n_docs →
  compute_doc_norms index idf n_docs !! d =
  Some (sqrt (sum_R (sq_tfidf <$> doc_words index idf d))).
Proof.
  intros Hd. unfold compute_doc_norms.
  rewrite list_lookup_fmap, lookup_seq_lt by done. simpl.
  by rewrite collect_doc_words_get, norm_of_eq.
Qed.

Lemma doc_norm_zero idf d :
  sqrt (sum_R (sq_tfidf <$> doc_words index idf d)) = 0%R ↔
  ∀ word v postings tf,
    (word, v) ∈ idf → Dict.get index word = Some postings → (d, tf) ∈ postings →
    tf = 0 ∨ v = 0%R.
Proof.
  pose proof (sum_sq_nonneg (doc_words index idf d)) as Hge.
  split.
  - intros Hsqrt%sqrt_eq_0; [|done].
    intros word v postings tf Hidf Hget Hp.
    apply (sq_tfidf_zero (tf, v)).
    apply (proj1 (sum_sq_zero _) Hsqrt). apply doc_words_elem.
    by exists word, postings.
  - intros Hall. rewrite (proj2 (sum_sq_zero _)); [apply sqrt_0|].
    intros e (word & postings & Hidf & Hget & Hp)%doc_words_elem.
    apply sq_tfidf_zero. by apply (Hall word e.2 postings e.1).
Qed.
End norm_more.

(** X17: [compute_doc_norms] returns one norm per document id below
    [n_docs]; a norm is never negative, and it is 0 exactly when every
    posting of the document under a term of the idf table has term
    frequency 0 or idf 0 (in particular when the document has no posting). *)
Theorem compute_doc_norms_zero (index : dict string (list (nat * nat)))
    (idf : dict string R) (n_docs d : nat) :
  d < n_docs →
  length (compute_doc_norms index idf n_docs) = n_docs ∧
  ∃ x,
    compute_doc_norms index idf n_docs !! d = Some x ∧ (0 <= x)%R ∧
    (x = 0%R ↔
     ∀ word v postings tf,
       (word, v) ∈ idf → Dict.get index word = Some postings →
       (d, tf) ∈ postings → tf = 0 ∨ v = 0%R).
Proof.
  intros Hd. split; [apply compute_doc_norms_length|].
  eexists. split; [by apply compute_doc_norms_lookup|].
  split; [apply sqrt_pos|apply doc_norm_zero].
Qed.

Lemma compute_doc_norms_zero_witness :
  1 < 2 ∧
  length (compute_doc_norms [("cat", [(0, 1)])] [("cat", 1%R)] 2) = 2 ∧
  ∃ x,
    compute_doc_norms [("cat", [(0, 1)])] [("cat", 1%R)] 2 !! 1 = Some x ∧
    (0 <= x)%R ∧
    (x = 0%R ↔
     ∀ word v postings tf,
       (word, v) ∈ [("cat", 1%R)] →
       Dict.get [("cat", [(0, 1)])] word = Some postings →
       (1, tf) ∈ postings → tf = 0 ∨ v = 0%R).
Proof.
  assert (1 < 2) as Hd by apply le_n.
  split; [exact Hd|].
  exact (compute_doc_norms_zero [("cat", [(0, 1)])] [("cat", 1%R)] 2 1 Hd).
Defined.

(** ** Dot-product scores *)

Section scorer_more.
Context (q : dict string nat) (index : dict string (list (nat * nat)))
  (idf : dict string R).

Lemma weight_nonneg (word : string) (tf : nat) : (0 <= weight q idf word tf)%R.
Proof.
  unfold weight. apply Rmult_le_pos; [apply pos_INR|apply pow2_ge_0].
Qed.

Lemma contribs_nonneg (c : nat * R) : c ∈ contribs q index idf → (0 <= c.2)%R.
Proof.
  unfold contribs. intros (word & Hc & _)%list_elem_of_bind.
  unfold word_contribs in Hc.
  destruct (Dict.mem q word); [|by apply elem_of_nil in Hc].
  apply list_elem_of_fmap in Hc as (p & -> & _). apply weight_nonneg.
Qed.

Lemma doc_total_nonneg (d : nat) (cs : list (nat * R)) :
  (∀ c, c ∈ cs → (0 <= c.2)%R) → (0 <= doc_total d cs)%R.
Proof.
  induction cs as [|[d' x] cs IH]; intros Hall.
  - unfold doc_total. simpl. lra.
  - rewrite doc_total_cons.
    assert (0 <= doc_total d cs)%R as Hcs.
    { apply IH. intros c Hc. by apply Hall, list_elem_of_further. }
    pose proof (Hall (d', x) (list_elem_of_here _ _)) as Hx. cbn [snd] in Hx.
    destruct (decide (d' = d)); lra.
Qed.

Lemma contribs_no_posting :
  (∀ word postings,
     word ∈ Dict.keys q → Dict.get index word = Some postings → postings = []) →
  contribs q index idf = [].
Proof.
  intros Hnone. unfold contribs. apply bind_nil. intros word Hword.
  apply elem_of_keys in Hword as [postings Hget].
  rewrite (word_contribs_get _ _ _ _ _ Hget).
  destruct (Dict.mem q word) eqn:Hmem; [|done].
  apply mem_true in Hmem. by rewrite (Hnone word postings Hmem Hget).
Qed.
End scorer_more.

(** X18: no score that [accumulate_dot_scores] returns is negative. *)
Theorem accumulate_dot_scores_nonneg (q : dict string nat)
    (index : dict string (list (nat * nat))) (idf : dict string R)
    (scores : dict nat R) (d : nat) (x : R) :
  accumulate_dot_scores q index idf = Ok scores →
  Dict.get scores d = Some x →
  (0 <= x)%R.
Proof.
  intros [-> _]%accumulate_dot_scores_inv Hget.
  rewrite (tally_get _ _ _ Hget). apply doc_total_nonneg.
  intros c. apply contribs_nonneg.
Qed.

Lemma accumulate_dot_scores_nonneg_witness :
  accumulate_dot_scores [("cat", 2)] [("cat", [(0, 3)])] [("cat", (-1)%R)]
    = Ok [(0, (0 + INR (3 * 2) * (-1) ^ 2)%R)] ∧
  Dict.get [(0, (0 + INR (3 * 2) * (-1) ^ 2)%R)] 0
    = Some (0 + INR (3 * 2) * (-1) ^ 2)%R ∧
  (0 <= 0 + INR (3 * 2) * (-1) ^ 2)%R.
Proof.
  split; [reflexivity|]. split; [reflexivity|].
  exact (accumulate_dot_scores_nonneg [("cat", 2)] [("cat", [(0, 3)])]
           [("cat", (-1)%R)] _ 0 _ eq_refl eq_refl).
Defined.

(** X19: when no term of the query has a posting in the index,
    [accumulate_dot_scores] returns the empty mapping, whatever the idf
    table holds. *)
Theorem accumulate_dot_scores_no_match (q : dict string nat)
    (index : dict string (list (nat * nat))) (idf : dict string R) :
  (∀ word postings,
     word ∈ Dict.keys q → Dict.get index word = Some postings → postings = []) →
  accumulate_dot_scores q index idf = Ok [].
Proof.
  intros Hnone. rewrite accumulate_dot_scores_ok.
  - by rewrite contribs_no_posting.
  - intros word (Hq & _ & p & postings & Hget).
    by specialize (Hnone word _ Hq Hget).
Qed.

Lemma accumulate_dot_scores_no_match_witness :
  (∀ word postings,
     word ∈ Dict.keys [("dog", 1)] →
     Dict.get [("cat", [(0, 3)])] word = Some postings → postings = []) ∧
  accumulate_dot_scores [("dog", 1)] [("cat", [(0, 3)])] [] = Ok [].
Proof.
  assert (∀ word postings,
     word ∈ Dict.keys [("dog", 1)] →
     Dict.get [("cat", [(0, 3)])] word = Some postings → postings = []) as Hnone.
  { intros word postings Hword. apply list_elem_of_singleton in Hword as ->.
    discriminate. }
  split; [exact Hnone|].
  exact (accumulate_dot_scores_no_match [("dog", 1)] [("cat", [(0, 3)])] [] Hnone).
Defined.

(** ** Ranking *)

#[local] Instance R_eq_dec : EqDecision R := Req_dec_T.

Section ranker_more.
Context (index : dict string (list (nat * nat))) (idf : dict string R).
Implicit Types (num_vals : dict nat R) (doc_norms : list R) (d : nat)
  (results : list (R * nat)) (s : R).

Lemma rank_loop_fail num_vals qn doc_norms (docs : list nat) results d :
  (∀ d', d' ∈ docs → d' ∈ Dict.keys num_vals) →
  d ∈ docs → length doc_norms ≤ d →
  rank_loop num_vals qn doc_norms docs results = Raise IndexError.
Proof.
  intros Hkeys Hd Hlen. revert results.
  induction docs as [|d0 docs IH]; intros results; [by apply elem_of_nil in Hd|].
  unfold rank_loop. cbn [for_each].
  destruct (getitem_keys num_vals d0) as (num & -> & _);
    [apply Hkeys, list_elem_of_here|].
  cbn [bind]. unfold array_getitem.
  destruct (doc_norms !! d0) as [norm|] eqn:Hnorm; cbn [bind]; [|done].
  apply elem_of_cons in Hd as [->|Hd].
  - apply lookup_lt_Some in Hnorm. lia.
  - apply IH; [|done]. intros d' Hd'. by apply Hkeys, list_elem_of_further.
Qed.



End ranker_more.

(** X20: when a document that has a posting under a query token has an id
    outside the norm array, [index_search] raises [IndexError]. *)
Theorem index_search_index_error (query : string)
    (index : dict string (list (nat * nat))) (idf : dict string R)
    (doc_norms : list R) (d : nat) :
  (∀ word, word ∈ tokenize query → word ∈ Dict.keys index →
           word ∈ Dict.keys idf) →
  shares_term (tokenize query) index d →
  length doc_norms ≤ d →
  index_search query index idf doc_norms accumulate_dot_scores tokenize
    = Raise IndexError.
Proof.
  intros Hidf Hshares Hlen.
  rewrite index_search_eq, tokenize_lower. cbn zeta.
  rewrite accumulate_dot_scores_total.
  - cbn [bind]. rewrite (rank_loop_fail _ _ _ _ _ d); [done|done| |done].
    by apply scored_keys, shares_term_Counter.
  - intros word Hword. apply Hidf. by apply (proj1 (Counter_keys _ _)).
Qed.

Lemma index_search_index_error_witness :
  (∀ word, word ∈ tokenize "cat" → word ∈ Dict.keys [("cat", [(3, 1)])] →
           word ∈ Dict.keys [("cat", 1%R)]) ∧
  shares_term (tokenize "cat") [("cat", [(3, 1)])] 3 ∧
  length [1%R] ≤ 3 ∧
  index_search "cat" [("cat", [(3, 1)])] [("cat", 1%R)] [1%R]
    accumulate_dot_scores tokenize = Raise IndexError.
Proof.
  assert (∀ word, word ∈ tokenize "cat" → word ∈ Dict.keys [("cat", [(3, 1)])] →
                  word ∈ Dict.keys [("cat", 1%R)]) as Hidf by (intros word _ Hw; exact Hw).
  assert (shares_term (tokenize "cat") [("cat", [(3, 1)])] 3) as Hshares.
  { exists "cat", [(3, 1)], 1.
    split; [apply list_elem_of_here|]. split; [reflexivity|apply list_elem_of_here]. }
  assert (length [1%R] ≤ 3) as Hlen by (simpl; lia).
  split; [exact Hidf|]. split; [exact Hshares|]. split; [exact Hlen|].
  exact (index_search_index_error "cat" [("cat", [(3, 1)])] [("cat", 1%R)] [1%R] 3
           Hidf Hshares Hlen).
Defined.



(** ** The ranking pipeline *)

Lemma ratio_lt_one (a n : nat) :
  n ≠ 0 → Rltb (INR a / INR n) 1 = true ↔ a < n.
Proof.
  intros Hn. assert (0 < INR n)%R as Hpos by (apply lt_0_INR; lia).
  rewrite Rltb_true. split.
  - intros Hlt. apply INR_lt.
    apply (Rmult_lt_compat_r (INR n)) in Hlt; [|done].
    unfold Rdiv in Hlt. rewrite Rmult_assoc, Rinv_l in Hlt by lra. lra.
  - intros Hlt%lt_INR. apply (Rmult_lt_reg_r (INR n)); [done|].
    unfold Rdiv. rewrite Rmult_assoc, Rinv_l by lra. lra.
Qed.

Lemma docs_with_all (t : string) (doc_lst : list string) :
  (∀ doc, doc ∈ doc_lst → t ∈ tokenize doc) → docs_with t doc_lst = doc_lst.
Proof.
  unfold docs_with. induction doc_lst as [|doc doc_lst IH]; intros Hall; [done|].
  rewrite filter_cons, decide_True by apply Hall, list_elem_of_here.
  f_equal. apply IH. intros doc' Hdoc'. by apply Hall, list_elem_of_further.
Qed.

Lemma NoDup_below_length (l : list nat) (n : nat) :
  NoDup l → (∀ x, x ∈ l → x < n) → length l ≤ n.
Proof.
  intros Hnd Hlt. rewrite <-(length_seq n 0). apply submseteq_length.
  apply NoDup_submseteq; [done|]. intros x Hx. apply elem_of_seq.
  specialize (Hlt x Hx). lia.
Qed.

Lemma top_ids (L : list (R * nat)) (k : nat) :
  NoDup L.*2 →
  length (take k (sorted_desc L)).*2 ≤ k ∧
  NoDup (take k (sorted_desc L)).*2 ∧
  (∀ i, i ∈ (take k (sorted_desc L)).*2 → i ∈ L.*2) ∧
  (length L ≤ k → ∀ i, i ∈ L.*2 → i ∈ (take k (sorted_desc L)).*2).
Proof.
  intros Hnd.
  assert ((sorted_desc L).*2 ≡ₚ L.*2) as Hperm by (by rewrite sorted_desc_perm).
  assert ((take k (sorted_desc L)).*2 `sublist_of` (sorted_desc L).*2) as Hsub.
  { apply fmap_sublist, sublist_take. }
  split_and!.
  - rewrite length_fmap, length_take. lia.
  - eapply sublist_NoDup; [|exact Hsub]. by rewrite Hperm.
  - intros i Hi. rewrite <-Hperm. by apply (elem_of_sublist _ _ _ Hi Hsub).
  - intros Hlen i Hi. rewrite take_ge.
    + by rewrite Hperm.
    + by rewrite sorted_desc_perm.
Qed.

Section pipeline.
Context `{SetOrder}.
Implicit Types (doc_lst : list string) (idx : dict string (list (nat * nat)))
  (idf : dict string R) (t query : string).

Lemma get_doc_rankings_nil query (num_docs : nat) :
  get_doc_rankings query [] num_docs = Ok [].
Proof.
  unfold get_doc_rankings.
  change (build_token_inverted_index_with_freq [] (build_doc_inverted_index []))
    with (Ok ([] : dict string (list (nat * nat)))).
  cbn [bind]. change (compute_idf [] (length []) 0 1) with (Ok ([] : dict string R)).
  cbn [bind]. rewrite index_search_eq. cbn zeta.
  change (accumulate_dot_scores _ [] []) with (Ok ([] : dict nat R)).
  cbn [bind]. change (rank_loop [] _ _ (Dict.keys []) []) with (Ok ([] : list (R * nat))).
  cbn [bind sorted_desc foldr]. by rewrite take_nil.
Qed.

Lemma pipeline_shares doc_lst idx query (d : nat) :
  build_token_inverted_index_with_freq doc_lst (build_doc_inverted_index doc_lst)
    = Ok idx →
  shares_term (tokenize query) idx d ↔ shares_token query doc_lst d.
Proof.
  intros Hidx. split.
  - intros (t & postings & tf & Ht & Hget & Hp).
    rewrite (with_freq_get _ _ _ _ Hidx) in Hget.
    apply extend_None_Some in Hget as [Heq _]. rewrite <-Heq in Hp.
    apply postings_of_elem in Hp as (doc & Hdoc & Htdoc & Hid & _).
    apply build_doc_inverted_index_get in Hid as [Hlook Hlast].
    by exists doc, t.
  - intros (doc & t & Hlook & Hlast & Ht & Htdoc).
    assert ((d, count t (tokenize doc)) ∈
            postings_of freq_entry (build_doc_inverted_index doc_lst) t doc_lst)
      as Hp.
    { apply postings_of_elem. exists doc. split_and!; [|done| |done].
      - by apply list_elem_of_lookup_2 with d.
      - by apply build_doc_inverted_index_get. }
    exists t, (postings_of freq_entry (build_doc_inverted_index doc_lst) t doc_lst),
      (count t (tokenize doc)).
    split_and!; [done| |done].
    rewrite (with_freq_get _ _ _ _ Hidx). apply extend_None_Some. split; [done|].
    intros Hnil. rewrite Hnil in Hp. by apply elem_of_nil in Hp.
Qed.

Lemma pipeline_df doc_lst idx t (postings : list (nat * nat)) :
  build_token_inverted_index_with_freq doc_lst (build_doc_inverted_index doc_lst)
    = Ok idx →
  Dict.get idx t = Some postings →
  postings ≠ [] ∧ length postings = length (docs_with t doc_lst).
Proof.
  intros Hidx Hget. rewrite (with_freq_get _ _ _ _ Hidx) in Hget.
  apply extend_None_Some in Hget as [Heq Hne]. split; [done|].
  rewrite <-Heq. apply postings_of_length.
  intros doc Hdoc. by apply build_doc_inverted_index_keys.
Qed.
End pipeline.

Section pipeline_results.
Context `{SetOrder}.
Implicit Types (doc_lst : list string) (idx : dict string (list (nat * nat)))
  (idf : dict string R) (t query : string).

Lemma get_doc_rankings_fail query doc_lst (num_docs : nat) t :
  doc_lst ≠ [] → t ∈ tokenize query →
  (∀ doc, doc ∈ doc_lst → t ∈ tokenize doc) →
  get_doc_rankings query doc_lst num_docs = Raise KeyError.
Proof.
  intros Hne Ht Hall.
  assert (length doc_lst ≠ 0) as Hn by (by destruct doc_lst).
  unfold get_doc_rankings.
  destruct (with_freq_total doc_lst) as [idx Hidx]. rewrite Hidx. cbn [bind].
  destruct (compute_idf_get idx (length doc_lst) 0 1 Hn)
    as (idf & Hcompute & _ & Hidf).
  rewrite Hcompute. cbn [bind].
  assert (∃ p postings, Dict.get idx t = Some (p :: postings) ∧
                        length (p :: postings) = length doc_lst)
    as (p & postings & Hget & Hlen).
  { rewrite (with_freq_get _ _ _ _ Hidx).
    pose proof (postings_of_length freq_entry (build_doc_inverted_index doc_lst)
                  doc_lst t) as Hlen.
    rewrite docs_with_all in Hlen by done.
    destruct (postings_of freq_entry _ t doc_lst) as [|p postings].
    - exfalso. apply Hn. symmetry. apply Hlen.
      intros doc Hdoc. by apply build_doc_inverted_index_keys.
    - exists p, postings. split; [done|]. apply Hlen.
      intros doc Hdoc. by apply build_doc_inverted_index_keys. }
  assert (Dict.get idf t = None) as Hpruned.
  { rewrite Hidf. unfold idf_value. rewrite Hget. cbn [Nat.leb andb].
    assert (Rltb (INR (length (p :: postings)) / INR (length doc_lst)) 1 = false)
      as ->; [|done].
    apply Rltb_false. rewrite Hlen.
    assert (0 < INR (length doc_lst))%R by (apply lt_0_INR; lia).
    unfold Rdiv. rewrite Rinv_r by lra. lra. }
  rewrite index_search_eq. cbn zeta.
  rewrite (accumulate_dot_scores_fail _ _ _ t); [done|].
  split_and!.
  - apply Counter_keys. by rewrite !tokenize_lower.
  - by apply not_elem_of_keys.
  - by exists p, postings.
Qed.

Lemma get_doc_rankings_ok query doc_lst (num_docs : nat) :
  (∀ t, t ∈ tokenize query → ∃ doc, doc ∈ doc_lst ∧ t ∉ tokenize doc) →
  ∃ r,
    get_doc_rankings query doc_lst num_docs = Ok r ∧
    length r ≤ num_docs ∧ NoDup r ∧
    (∀ i, i ∈ r → shares_token query doc_lst i) ∧
    (length doc_lst ≤ num_docs → ∀ i, shares_token query doc_lst i → i ∈ r).
Proof.
  intros Hmiss. destruct (decide (doc_lst = [])) as [->|Hne].
  { exists []. rewrite get_doc_rankings_nil.
    split_and!; [done|simpl; lia|constructor| |].
    - intros i Hi. by apply elem_of_nil in Hi.
    - intros _ i (doc & t & Hlook & _). by rewrite lookup_nil in Hlook. }
  assert (length doc_lst ≠ 0) as Hn by (by destruct doc_lst).
  destruct (with_freq_total doc_lst) as [idx Hidx].
  destruct (compute_idf_get idx (length doc_lst) 0 1 Hn)
    as (idf & Hcompute & _ & Hidf).
  assert (∀ word, word ∈ Dict.keys (Counter (tokenize query)) →
                  word ∈ Dict.keys idx → word ∈ Dict.keys idf) as Htotal.
  { intros word Hq [postings Hget]%elem_of_keys.
    apply (proj1 (Counter_keys _ _)) in Hq.
    destruct (Hmiss word Hq) as (doc & Hdoc & Hnot).
    destruct (pipeline_df _ _ _ _ Hidx Hget) as [_ Hlen].
    apply elem_of_keys. rewrite Hidf. unfold idf_value. rewrite Hget.
    cbn [Nat.leb andb]. rewrite (proj2 (ratio_lt_one _ _ Hn)); [done|].
    rewrite Hlen. unfold docs_with. by apply length_filter_lt with doc. }
  pose proof (accumulate_dot_scores_total _ idx idf Htotal) as Hscores.
  set (num_vals := tally (contribs (Counter (tokenize query)) idx idf) []) in *.
  assert (∀ d, d ∈ Dict.keys num_vals ↔ shares_token query doc_lst d) as Hkeys.
  { intros d. unfold num_vals.
    by rewrite scored_keys, shares_term_Counter, (pipeline_shares _ _ _ _ Hidx). }
  assert (∀ d, d ∈ Dict.keys num_vals → d < length doc_lst) as Hbound.
  { intros d (doc & _ & Hlook & _)%Hkeys. by apply lookup_lt_Some in Hlook. }
  assert (NoDup (Dict.keys num_vals)) as Hnd.
  { apply tally_keys_NoDup. constructor. }
  pose proof (index_search_ranked (lower query) idx idf
                (compute_doc_norms idx idf (length doc_lst)) num_vals) as Hranked.
  cbn zeta in Hranked. rewrite tokenize_lower in Hranked.
  specialize (Hranked Hscores).
  rewrite compute_doc_norms_length in Hranked. specialize (Hranked Hbound).
  unfold get_doc_rankings. rewrite Hidx. cbn [bind]. rewrite Hcompute. cbn [bind].
  rewrite Hranked. cbn [bind]. eexists. split; [done|].
  match goal with
  | |- context [take num_docs (sorted_desc ?L)] =>
      destruct (top_ids L num_docs) as (Hlen & Hnd' & Hin & Hall)
  end.
  { by rewrite cosine_docs. }
  rewrite cosine_docs in Hin, Hall. rewrite length_fmap in Hall.
  split_and!; [done|done| |].
  - intros i Hi. by apply Hkeys, Hin.
  - intros Hle i Hi. apply Hall; [|by apply Hkeys].
    pose proof (NoDup_below_length _ _ Hnd Hbound). lia.
Qed.
End pipeline_results.

(** X22: with an empty collection, an empty query or no document that
    shares a token with the query, [get_doc_rankings] returns the empty
    list; the document count 0 raises no division error. *)
Theorem get_doc_rankings_no_match `{SetOrder} (query : string)
    (doc_lst : list string) (num_docs : nat) :
  (∀ t doc, t ∈ tokenize query → doc ∈ doc_lst → t ∉ tokenize doc) →
  get_doc_rankings query doc_lst num_docs = Ok [].
Proof.
  intros Hnone. destruct doc_lst as [|doc0 doc_lst]; [apply get_doc_rankings_nil|].
  destruct (get_doc_rankings_ok query (doc0 :: doc_lst) num_docs)
    as (r & Hr & _ & _ & Hin & _).
  { intros t Ht. exists doc0. split; [apply list_elem_of_here|].
    apply Hnone; [done|apply list_elem_of_here]. }
  rewrite Hr. f_equal. destruct r as [|i r]; [done|].
  destruct (Hin i (list_elem_of_here _ _)) as (doc & t & Hlook & _ & Ht & Htdoc).
  exfalso. apply (Hnone t doc Ht); [|done]. by apply list_elem_of_lookup_2 with i.
Qed.

Lemma get_doc_rankings_no_match_witness :
  (∀ t doc, t ∈ tokenize "bird" → doc ∈ ["the cat"; "a dog"] → t ∉ tokenize doc) ∧
  get_doc_rankings (H := first_seen_order) "bird" ["the cat"; "a dog"] 5 = Ok [].
Proof.
  assert (∀ t doc, t ∈ tokenize "bird" → doc ∈ ["the cat"; "a dog"] →
                   t ∉ tokenize doc) as Hnone.
  { intros t doc Ht Hdoc. apply list_elem_of_singleton in Ht as ->.
    repeat (apply elem_of_cons in Hdoc as [->|Hdoc]);
      [| |by apply elem_of_nil in Hdoc];
      intros Hin; repeat (apply elem_of_cons in Hin as [?|Hin]; [done|]);
      by apply elem_of_nil in Hin. }
  split; [exact Hnone|].
  exact (get_doc_rankings_no_match (H := first_seen_order) "bird"
           ["the cat"; "a dog"] 5 Hnone).
Defined.

(** X23: on a non-empty collection, a query that holds a token present in
    every document makes [get_doc_rankings] raise [KeyError]: the idf
    table is built with [max_df_ratio = 1], which drops that token, and the
    scorer looks it up. *)
Theorem get_doc_rankings_key_error `{SetOrder} (query : string)
    (doc_lst : list string) (num_docs : nat) (t : string) :
  doc_lst ≠ [] → t ∈ tokenize query →
  (∀ doc, doc ∈ doc_lst → t ∈ tokenize doc) →
  get_doc_rankings query doc_lst num_docs = Raise KeyError.
Proof. apply get_doc_rankings_fail. Qed.

Lemma get_doc_rankings_key_error_witness :
  ["the cat"; "the dog"] ≠ [] ∧ "the" ∈ tokenize "The bird" ∧
  (∀ doc, doc ∈ ["the cat"; "the dog"] → "the" ∈ tokenize doc) ∧
  get_doc_rankings (H := first_seen_order) "The bird" ["the cat"; "the dog"] 5
    = Raise KeyError.
Proof.
  assert (["the cat"; "the dog"] ≠ []) as Hne by discriminate.
  assert ("the" ∈ tokenize "The bird") as Ht by apply list_elem_of_here.
  assert (∀ doc, doc ∈ ["the cat"; "the dog"] → "the" ∈ tokenize doc) as Hall.
  { intros doc Hdoc.
    repeat (apply elem_of_cons in Hdoc as [->|Hdoc]);
      [apply list_elem_of_here..|by apply elem_of_nil in Hdoc]. }
  split; [exact Hne|]. split; [exact Ht|]. split; [exact Hall|].
  exact (get_doc_rankings_key_error (H := first_seen_order) "The bird"
           ["the cat"; "the dog"] 5 "the" Hne Ht Hall).
Defined.

(** X24: when every token of the query is missing from at least one
    document, [get_doc_rankings] returns at most [num_docs] pairwise
    distinct positions, each the last occurrence of a text that shares a
    token with the query, and all such positions when [num_docs] is at
    least the size of the collection. *)
Theorem get_doc_rankings_result `{SetOrder} (query : string)
    (doc_lst : list string) (num_docs : nat) :
  (∀ t, t ∈ tokenize query → ∃ doc, doc ∈ doc_lst ∧ t ∉ tokenize doc) →
  ∃ r,
    get_doc_rankings query doc_lst num_docs = Ok r ∧
    length r ≤ num_docs ∧ NoDup r ∧
    (∀ i, i ∈ r → shares_token query doc_lst i) ∧
    (length doc_lst ≤ num_docs → ∀ i, shares_token query doc_lst i → i ∈ r).
Proof. apply get_doc_rankings_ok. Qed.

Lemma get_doc_rankings_result_witness :
  (∀ t, t ∈ tokenize "cat" → ∃ doc, doc ∈ cat_docs ∧ t ∉ tokenize doc) ∧
  ∃ r,
    get_doc_rankings (H := first_seen_order) "cat" cat_docs 5 = Ok r ∧
    length r ≤ 5 ∧ NoDup r ∧
    (∀ i, i ∈ r → shares_token "cat" cat_docs i) ∧
    (length cat_docs ≤ 5 → ∀ i, shares_token "cat" cat_docs i → i ∈ r).
Proof.
  assert (∀ t, t ∈ tokenize "cat" → ∃ doc, doc ∈ cat_docs ∧ t ∉ tokenize doc)
    as Hmiss.
  { intros t Ht. apply list_elem_of_singleton in Ht as ->.
    exists "cats and dogs". split.
    - unfold cat_docs. do 2 apply list_elem_of_further. apply list_elem_of_here.
    - intros Hin. repeat (apply elem_of_cons in Hin as [?|Hin]; [done|]).
      by apply elem_of_nil in Hin. }
  split; [exact Hmiss|].
  exact (get_doc_rankings_result (H := first_seen_order) "cat" cat_docs 5 Hmiss).
Defined.

(** ** Latent-semantic engine: shapes *)

Lemma matrix_dot_loop_fail (docs : list (list R)) (v row : list R) (acc : list R) :
  row ∈ docs → length row ≠ length v →
  for_each
    (λ sims row,
       if length row =? length v then Ok (sims ++ [inner row v])
       else Raise ValueError)
    docs acc
  = Raise ValueError.
Proof.
  intros Hrow Hlen. revert acc.
  induction docs as [|row0 docs IH]; intros acc; [by apply elem_of_nil in Hrow|].
  cbn [for_each]. destruct (length row0 =? length v) eqn:Heq; cbn [bind]; [|done].
  apply Nat.eqb_eq in Heq. apply elem_of_cons in Hrow as [->|Hrow]; [done|].
  by apply IH.
Qed.

Section shapes.
Context `{ArgSort}.
Implicit Types (docs words : list (list R)) (query_vec qe : list R) (k : nat).

Lemma embed_query_shape words query_vec :
  length query_vec ≠ length words →
  embed_query words query_vec = Raise ValueError.
Proof.
  intros Hlen. unfold embed_query, row_times_matrix.
  by rewrite (proj2 (Nat.eqb_neq _ _) Hlen).
Qed.

Lemma argsort_rows docs (x : R) (i : nat) (row : list nat) :
  ((λ row, argsort (Ropp <$> row)) <$> ((fmap (λ y, y * x)%R) <$> docs)) !! i
    = Some row →
  ∃ drow, docs !! i = Some drow ∧ row ≡ₚ seq 0 (length drow).
Proof.
  rewrite !list_lookup_fmap. destruct (docs !! i) as [drow|]; [|done].
  simpl. intros [= <-]. exists drow. split; [done|].
  by rewrite argsort_perm, !length_fmap.
Qed.
End shapes.

(** X25: [closest_projects_to_query] raises [ValueError] when the query
    vector and the word matrix do not agree in length, and when a document
    embedding has not the length of the projected query. *)
Theorem closest_projects_shape_error `{ArgSort} (docs words : list (list R))
    (query_vec : list R) (k : nat) :
  (length query_vec ≠ length words →
   closest_projects_to_query docs words query_vec k = Raise ValueError) ∧
  (∀ qe row,
     embed_query words query_vec = Ok (Vector qe) →
     row ∈ docs → length row ≠ length qe →
     closest_projects_to_query docs words query_vec k = Raise ValueError).
Proof.
  split.
  - intros Hlen. unfold closest_projects_to_query.
    by rewrite embed_query_shape.
  - intros qe row Hembed Hrow Hlen. unfold closest_projects_to_query.
    rewrite Hembed. cbn [bind matrix_dot].
    by rewrite (matrix_dot_loop_fail docs qe row).
Qed.

Lemma closest_projects_shape_error_witness :
  length [1%R; 2%R; 3%R] ≠ length [[1%R; 0%R]; [0%R; 1%R]] ∧
  closest_projects_to_query (H := insertion_order)
    [[1%R; 0%R]] [[1%R; 0%R]; [0%R; 1%R]] [1%R; 2%R; 3%R] 1 = Raise ValueError.
Proof.
  assert (length [1%R; 2%R; 3%R] ≠ length [[1%R; 0%R]; [0%R; 1%R]]) as Hlen
    by discriminate.
  split; [exact Hlen|].
  exact (proj1 (closest_projects_shape_error (H := insertion_order) [[1%R; 0%R]]
                  [[1%R; 0%R]; [0%R; 1%R]] [1%R; 2%R; 3%R] 1) Hlen).
Defined.

(** X26: when the projected query is a single number, the squeeze turns it
    into a scalar and [closest_projects_to_query] returns no ranking of the
    documents: the result has two axes, one row for each of the first
    [k + 1] documents, and each row orders the column indices of that
    document's embedding. *)
Theorem closest_projects_scalar `{ArgSort} (docs words : list (list R))
    (query_vec : list R) (x : R) (k : nat) :
  embed_query words query_vec = Ok (Scalar x) →
  ∃ m,
    closest_projects_to_query docs words query_vec k = Ok (Idx2 m) ∧
    length m = (k + 1) `min` length docs ∧
    ∀ i row, m !! i = Some row →
             ∃ drow, docs !! i = Some drow ∧ row ≡ₚ seq 0 (length drow).
Proof.
  intros Hembed. unfold closest_projects_to_query. rewrite Hembed.
  cbn [bind matrix_dot nearest]. eexists. split; [done|]. split.
  - by rewrite length_take, !length_fmap.
  - intros i row Hrow. apply lookup_take_Some in Hrow as [Hrow _].
    by apply argsort_rows in Hrow.
Qed.

Lemma closest_projects_scalar_witness :
  let x := default 0%R (head (normalize [(2 * 1 + 0)%R])) in
  embed_query [[1%R]] [2%R] = Ok (Scalar x) ∧
  ∃ m,
    closest_projects_to_query (H := insertion_order) [[3%R]; [4%R]] [[1%R]]
      [2%R] 0 = Ok (Idx2 m) ∧
    length m = (0 + 1) `min` length [[3%R]; [4%R]] ∧
    ∀ i row, m !! i = Some row →
             ∃ drow, [[3%R]; [4%R]] !! i = Some drow ∧ row ≡ₚ seq 0 (length drow).
Proof.
  intros x.
  assert (embed_query [[1%R]] [2%R] = Ok (Scalar x)) as Hembed.
  { unfold x, embed_query, normalize. simpl.
    destruct (Req_dec_T _ _); reflexivity. }
  split; [exact Hembed|].
  exact (closest_projects_scalar (H := insertion_order) [[3%R]; [4%R]] [[1%R]]
           [2%R] x 0 Hembed).
Defined.

(** ** Letter case of the query *)

Lemma tokenize_same_lower (q1 q2 : string) :
  lower q1 = lower q2 → tokenize q1 = tokenize q2.
Proof. intros Hlow. unfold tokenize. by rewrite Hlow. Qed.

(** X27: two queries that differ only in letter case get the same answer
    from [boolean_search], [index_search] and [get_doc_rankings]. *)
Theorem query_case_insensitive `{SetOrder} (q1 q2 : string) :
  lower q1 = lower q2 →
  (∀ token_inv_idx n,
     boolean_search q1 token_inv_idx n = boolean_search q2 token_inv_idx n) ∧
  (∀ index idf doc_norms,
     index_search q1 index idf doc_norms accumulate_dot_scores tokenize =
     index_search q2 index idf doc_norms accumulate_dot_scores tokenize) ∧
  (∀ doc_lst num_docs,
     get_doc_rankings q1 doc_lst num_docs = get_doc_rankings q2 doc_lst num_docs).
Proof.
  intros Hlow. split_and!.
  - intros token_inv_idx n. unfold boolean_search.
    by rewrite (tokenize_same_lower q1 q2 Hlow).
  - intros index idf doc_norms. unfold index_search. by rewrite Hlow.
  - intros doc_lst num_docs. unfold get_doc_rankings. by rewrite Hlow.
Qed.

Lemma query_case_insensitive_witness :
  lower "The CAT" = lower "the cat" ∧
  (∀ token_inv_idx n,
     boolean_search "The CAT" token_inv_idx n
     = boolean_search "the cat" token_inv_idx n) ∧
  (∀ index idf doc_norms,
     index_search "The CAT" index idf doc_norms accumulate_dot_scores tokenize =
     index_search "the cat" index idf doc_norms accumulate_dot_scores tokenize) ∧
  (∀ doc_lst num_docs,
     get_doc_rankings (H := first_seen_order) "The CAT" doc_lst num_docs
     = get_doc_rankings (H := first_seen_order) "the cat" doc_lst num_docs).
Proof.
  assert (lower "The CAT" = lower "the cat") as Hlow by reflexivity.
  split; [exact Hlow|].
  exact (query_case_insensitive (H := first_seen_order) "The CAT" "the cat" Hlow).
Defined.

(** ** The order of the posting lists *)

(** X28: for pairwise distinct texts both builders keep what their
    docstring promises: the document ids of every posting list are
    strictly ascending, so that a document is listed at most once, and
    every term frequency is at least 1. *)
Theorem posting_lists_ascending `{SetOrder} (doc_lst : list string) :
  NoDup doc_lst →
  ∃ idx bool_idx,
    build_token_inverted_index_with_freq doc_lst (build_doc_inverted_index doc_lst)
      = Ok idx ∧
    build_token_inverted_index doc_lst (build_doc_inverted_index doc_lst)
      = Ok bool_idx ∧
    (∀ t postings, Dict.get idx t = Some postings →
       StronglySorted lt postings.*1 ∧ Forall (λ p, 1 ≤ p.2) postings) ∧
    (∀ t ids, Dict.get bool_idx t = Some ids → StronglySorted lt ids).
Proof.
  intros Hnd. destruct (with_freq_total doc_lst) as [idx Hidx].
  exists idx, (map_postings fst idx). split_and!; [done| | |].
  - by apply (index_docs_map fst freq_entry _ _ []) in Hidx.
  - intros t postings Hget. by apply (posting_lists_distinct doc_lst idx t).
  - intros t ids. rewrite get_map_postings.
    destruct (Dict.get idx t) as [postings|] eqn:Hget; [|done].
    intros [= <-]. by apply (posting_lists_distinct doc_lst idx t).
Qed.

Lemma posting_lists_ascending_witness :
  NoDup cat_docs ∧
  ∃ idx bool_idx,
    build_token_inverted_index_with_freq (H := first_seen_order) cat_docs
      (build_doc_inverted_index cat_docs) = Ok idx ∧
    build_token_inverted_index (H := first_seen_order) cat_docs
      (build_doc_inverted_index cat_docs) = Ok bool_idx ∧
    (∀ t postings, Dict.get idx t = Some postings →
       StronglySorted lt postings.*1 ∧ Forall (λ p, 1 ≤ p.2) postings) ∧
    (∀ t ids, Dict.get bool_idx t = Some ids → StronglySorted lt ids).
Proof.
  assert (NoDup cat_docs) as Hnd.
  { apply (NoDup_ListNoDup cat_docs). repeat constructor; simpl; intuition discriminate. }
  split; [exact Hnd|].
  exact (posting_lists_ascending (H := first_seen_order) cat_docs Hnd).
Defined.
